(** * Cambly transcript formatter: a shallow embedding of
      [cambly/scripts/format_transcript.py] (and of the argument check it
      shares with [cambly/scripts/correct_english.py]).

    Python strings are sequences of Unicode code points, so a character is
    a code point ([N]) and a string is a list of them.  The built-in string
    methods that only depend on the white-space table are written out; the
    case mappings and the digit table of the Python runtime are taken as
    parameters of the development. *)

From Stdlib Require Import NArith Ascii String Sorted Lia.
From stdpp Require Import base numbers list strings gmap.

#[local] Set Default Proof Using "Type".

(** Case analysis on the comparisons of code points in sight. *)
Ltac case_leb :=
  repeat match goal with
         | |- context [N.leb ?a ?b] => destruct (N.leb_spec a b)
         | H : context [N.leb ?a ?b] |- _ => destruct (N.leb_spec a b)
         | |- context [N.ltb ?a ?b] => destruct (N.ltb_spec a b)
         | H : context [N.ltb ?a ?b] |- _ => destruct (N.ltb_spec a b)
         end; simpl in *; try lia.

(** Boolean conjunctions of character tests, as equations. *)
Ltac split_andb :=
  repeat match goal with
         | H : _ && _ = true |- _ => apply andb_true_iff in H as [? ?]
         end;
  repeat match goal with
         | H : (_ =? _)%N = true |- _ => apply N.eqb_eq in H
         end.

(** ** Strings *)

Abbreviation char := N (only parsing).
Abbreviation str := (list N) (only parsing).

(** A literal written with 7-bit characters. *)
Definition lit (s : string) : str :=
  (fun a => N_of_ascii a) <$> list_ascii_of_string s.

(** [str.isspace] on one code point (the table the runtime uses for
    [strip], [split] and the regular expression class [\s]). *)
Definition isspace (c : char) : bool :=
  (((0x09 <=? c) && (c <=? 0x0D)) || ((0x1C <=? c) && (c <=? 0x20))
   || (c =? 0x85) || (c =? 0xA0) || (c =? 0x1680)
   || ((0x2000 <=? c) && (c <=? 0x200A))
   || (c =? 0x2028) || (c =? 0x2029) || (c =? 0x202F) || (c =? 0x205F)
   || (c =? 0x3000))%N.

Definition newline : char := 0x0A%N.
Definition space : char := 0x20%N.
Definition comma : char := 0x2C%N.
Definition period : char := 0x2E%N.

(** [c in chars] for a one-character [c]. *)
Definition char_in (chars : str) (c : char) : bool :=
  existsb (N.eqb c) chars.

(** Drop the leading characters that satisfy [p]. *)
Fixpoint lstrip_by (p : char -> bool) (s : str) : str :=
  match s with
  | [] => []
  | c :: s' => if p c then lstrip_by p s' else s
  end.

(** Drop the trailing characters that satisfy [p]. *)
Definition rstrip_by (p : char -> bool) (s : str) : str :=
  rev (lstrip_by p (rev s)).

(** [s.strip()] *)
Definition strip (s : str) : str := rstrip_by isspace (lstrip_by isspace s).

(** [s.rstrip(chars)] *)
Definition rstrip_chars (chars : str) (s : str) : str :=
  rstrip_by (char_in chars) s.

(** [s.split(sep)] for a one-character separator: never the empty list. *)
Fixpoint split_on (sep : char) (s : str) : list str :=
  match s with
  | [] => [[]]
  | c :: s' =>
      if (c =? sep)%N then [] :: split_on sep s'
      else match split_on sep s' with
           | l :: ls => (c :: l) :: ls
           | [] => [[c]]
           end
  end.

(** [sep.join(parts)] *)
Fixpoint join (sep : str) (parts : list str) : str :=
  match parts with
  | [] => []
  | [p] => p
  | p :: ps => p ++ sep ++ join sep ps
  end.

(** [s.startswith(pre)] *)
Fixpoint startswith (s pre : str) : bool :=
  match pre, s with
  | [], _ => true
  | _ :: _, [] => false
  | a :: pre', c :: s' => (c =? a)%N && startswith s' pre'
  end.

(** [s.endswith(suf)] *)
Definition endswith (s suf : str) : bool := startswith (rev s) (rev suf).

(** [s.replace(old, '')] for a non-empty [old]: the occurrences of [old]
    are found from the left and do not overlap; [skip] counts the
    characters of the current occurrence that are still to be dropped. *)
Fixpoint remove_from (skip : nat) (old s : str) : str :=
  match s with
  | [] => []
  | c :: s' =>
      match skip with
      | S k => remove_from k old s'
      | O => if startswith s old then remove_from (Nat.pred (length old)) old s'
             else c :: remove_from O old s'
      end
  end.

Definition remove_all (old s : str) : str := remove_from O old s.

(** The regular expression substitution [re.sub(r'\s+', ' ', s)]: every
    maximal run of white space becomes one space.  [in_run] tells that the
    scan is inside a run whose space has been written already. *)
Fixpoint collapse_from (in_run : bool) (s : str) : str :=
  match s with
  | [] => []
  | c :: s' =>
      if isspace c then
        if in_run then collapse_from true s' else space :: collapse_from true s'
      else c :: collapse_from false s'
  end.

Definition collapse_ws (s : str) : str := collapse_from false s.

(** ** The 7-bit part of the runtime's case mappings and digit table

    These are what [str.lower], [str.upper] and [str.isdigit] do on code
    points below 128; they instantiate the parameters of the development
    on inputs written with 7-bit characters. *)

Definition ascii_lower_char (c : char) : char :=
  if ((0x41 <=? c) && (c <=? 0x5A))%N then (c + 32)%N else c.

Definition ascii_upper_char (c : char) : char :=
  if ((0x61 <=? c) && (c <=? 0x7A))%N then (c - 32)%N else c.

Definition ascii_lower (s : str) : str := ascii_lower_char <$> s.

Definition ascii_upper1 (c : char) : str := [ascii_upper_char c].

Definition ascii_isdigit (c : char) : bool := ((0x30 <=? c) && (c <=? 0x39))%N.

Definition is_ascii (c : char) : bool := (c <? 128)%N.

(** ** Data model *)

Record Utterance := mkUtterance { speaker : list N; text : list N }.

#[global] Instance Utterance_eq_dec : EqDecision Utterance.
Proof. solve_decision. Defined.

(** The label suffix of a speaker line, U+306E U+30A2 U+30D0 U+30BF U+30FC. *)
Definition AVATAR_SUFFIX : str := [0x306E; 0x30A2; 0x30D0; 0x30BF; 0x30FC]%N.

Definition MINIMAL_INTERJECTIONS_list : list string :=
  [ "mmm"; "mm"; "mhm"; "mm-hmm"; "mmhmm";
    "uh-huh"; "uh huh"; "uhuh";
    "yeah"; "yep"; "yup";
    "okay"; "ok"; "right";
    "oh"; "ah"; "i see" ]%string.

Definition MINIMAL_INTERJECTIONS : gset (list N) :=
  list_to_set (lit <$> MINIMAL_INTERJECTIONS_list).

(** ** parse_transcript *)

Record parse_state := mkParseState {
  utterances : list Utterance;
  current_speaker : option (list N);
  current_text_parts : list (list N)
}.

(** Python truth value of a string or of a list. *)
Definition truthy {A} (l : list A) : bool :=
  match l with [] => false | _ :: _ => true end.

(** "Save previous utterance if exists": the utterances after the pending
    block has been appended, when it has a speaker and text. *)
Definition save_pending (st : parse_state) : list Utterance :=
  match current_speaker st with
  | Some sp =>
      if truthy sp && truthy (current_text_parts st) then
        let text := strip (join [space] (current_text_parts st)) in
        if truthy text then utterances st ++ [mkUtterance sp text]
        else utterances st
      else utterances st
  | None => utterances st
  end.

(** One iteration of the loop over the lines. *)
Definition parse_line (st : parse_state) (line0 : list N) : parse_state :=
  let line := strip line0 in
  if negb (truthy line) then st
  else if endswith line AVATAR_SUFFIX then
    {| utterances := save_pending st;
       current_speaker := Some (remove_all AVATAR_SUFFIX line);
       current_text_parts := [] |}
  else
    match current_speaker st with
    | Some sp =>
        if truthy sp then
          {| utterances := utterances st;
             current_speaker := current_speaker st;
             current_text_parts := current_text_parts st ++ [line] |}
        else st
    | None => st
    end.

Definition parse_init : parse_state :=
  {| utterances := []; current_speaker := None; current_text_parts := [] |}.

Definition parse_transcript (raw_text : list N) : list Utterance :=
  let lines := split_on newline (strip raw_text) in
  save_pending (fold_left parse_line lines parse_init).

(** ** clean_text *)

Definition clean_text (text : list N) : list N :=
  rstrip_chars [comma] (strip (collapse_ws text)).

Section Formatter.

(** [s.lower()] of the runtime. *)
Variable str_lower : list N -> list N.

(** [c.upper()] of the runtime for a string of one character [c]. *)
Variable char_upper : N -> list N.

(** ** is_minimal_interjection *)

Definition is_minimal_interjection (text : list N) : bool :=
  let cleaned := rstrip_chars (lit ".,!?") (strip (str_lower text)) in
  bool_decide (cleaned ∈ MINIMAL_INTERJECTIONS).

(** ** merge_utterances *)

(** The inner [while j < len(utterances)] loop, from index [j] with the
    texts combined so far; the result is the index at which the loop
    stops and the combined texts. *)
Fixpoint absorb_loop (fuel : nat) (us : list Utterance) (current : Utterance)
    (j : nat) (combined_texts : list (list N)) : option (nat * list (list N)) :=
  match fuel with
  | O => None
  | S fuel' =>
      match us !! j with
      | None => Some (j, combined_texts)
      | Some next_utt =>
          if bool_decide (speaker next_utt = speaker current) then
            absorb_loop fuel' us current (j + 1)
                        (combined_texts ++ [text next_utt])
          else if is_minimal_interjection (text next_utt) then
            match us !! (j + 1) with
            | Some after =>
                if bool_decide (speaker after = speaker current) then
                  absorb_loop fuel' us current (j + 1) combined_texts
                else Some (j, combined_texts)
            | None => Some (j, combined_texts)
            end
          else Some (j, combined_texts)
      end
  end.

(** The outer [while i < len(utterances)] loop. *)
Fixpoint merge_loop (fuel : nat) (us : list Utterance) (i : nat)
    (merged : list Utterance) : option (list Utterance) :=
  match fuel with
  | O => None
  | S fuel' =>
      match us !! i with
      | None => Some merged
      | Some current =>
          match absorb_loop (S (length us)) us current (i + 1)
                            [text current] with
          | None => None
          | Some (j, combined_texts) =>
              let merged_text := join [space] combined_texts in
              merge_loop fuel' us j
                         (merged ++ [mkUtterance (speaker current) merged_text])
          end
      end
  end.

Definition merge_utterances (us : list Utterance) : option (list Utterance) :=
  if negb (truthy us) then Some [] else merge_loop (S (length us)) us 0 [].

(** ** add_punctuation *)

(** "Capitalize first letter":
    [text[0].upper() + text[1:] if len(text) > 1 else text.upper()]. *)
Definition capitalize_first (text : list N) : list N :=
  match text with
  | [] => []
  | c :: rest => if 1 <? length text then char_upper c ++ rest else char_upper c
  end.

(** "Add period at end if no punctuation":
    [if text and text[-1] not in '.!?': text += '.']. *)
Definition add_period (text : list N) : list N :=
  match last text with
  | Some l => if truthy text && negb (char_in (lit ".!?") l)
              then text ++ [period] else text
  | None => text
  end.

Definition add_punctuation (text0 : list N) : list N :=
  let text := clean_text text0 in
  if negb (truthy text) then text
  else add_period (capitalize_first text).

(** ** format_transcript *)

Definition format_transcript (us : list Utterance) : list N :=
  join (lit (String "010" (String "010" EmptyString)))
       ((fun utt => speaker utt ++ lit ": " ++ add_punctuation (text utt)) <$> us).

(** ** main: the argument check of both scripts

    What a run does is recorded as the list of its effects, in order. *)

Inductive event :=
| Print (msg : list N)          (* a line on standard output *)
| PathExists (path : list N)    (* the probe [path.exists()] *)
| Exit (code : Z).              (* [sys.exit(code)] *)

(** [c.isdigit()] of the runtime for one character. *)
Variable char_isdigit : N -> bool.

(** [s.isdigit()]: all characters are digits and there is at least one. *)
Definition str_isdigit (s : list N) : bool := truthy s && forallb char_isdigit s.

(** What each script does once the probe of its input file has been made. *)
Variable format_after_probe : list N -> list event.
Variable correct_after_probe : list N -> list event.

Definition invalid_date_msg (date_str : list N) : list N :=
  lit "Error: Invalid date format '" ++ date_str
      ++ lit "'. Use YYYYMMDD (e.g., 20251222)".

Definition raw_path (date_str : list N) : list N :=
  lit "cambly/raw/" ++ date_str ++ lit ".txt".

Definition formatted_path (date_str : list N) : list N :=
  lit "cambly/formatted/" ++ date_str ++ lit ".md".

(** [main] of format_transcript.py; [argv] is [sys.argv]. *)
Definition format_main (argv : list (list N)) : list event :=
  match argv with
  | [_; date_str] =>
      if negb ((length date_str =? 8) && str_isdigit date_str) then
        [Print (invalid_date_msg date_str); Exit 1]
      else PathExists (raw_path date_str) :: format_after_probe date_str
  | _ =>
      [Print (lit "Usage: python cambly/scripts/format_transcript.py <YYYYMMDD>");
       Print (lit "Example: python cambly/scripts/format_transcript.py 20251222");
       Exit 1]
  end.

(** [main] of correct_english.py. *)
Definition correct_main (argv : list (list N)) : list event :=
  match argv with
  | [_; date_str] =>
      if negb ((length date_str =? 8) && str_isdigit date_str) then
        [Print (invalid_date_msg date_str); Exit 1]
      else PathExists (formatted_path date_str) :: correct_after_probe date_str
  | _ =>
      [Print (lit "Usage: python cambly/scripts/correct_english.py <YYYYMMDD>");
       Print (lit "Example: python cambly/scripts/correct_english.py 20251222");
       Exit 1]
  end.

(** * Notions used to state the properties

    ** The turns of a merge, declaratively

    A turn is opened at an utterance [cur] and takes the utterances
    [taken] that follow it: those of the same speaker, and the minimal
    interjections of another speaker that are directly followed by the
    turn's speaker again. *)

Definition same_speaker (cur u : Utterance) : bool :=
  bool_decide (speaker u = speaker cur).

Definition returns_to (cur : Utterance) (rest : list Utterance) : bool :=
  match rest with
  | v :: _ => same_speaker cur v
  | [] => false
  end.

Fixpoint scan_turn (cur : Utterance) (taken rest : list Utterance)
    : list (Utterance * list Utterance) :=
  match rest with
  | [] => [(cur, taken)]
  | u :: rest' =>
      if same_speaker cur u then scan_turn cur (taken ++ [u]) rest'
      else if is_minimal_interjection (text u) && returns_to cur rest'
      then scan_turn cur (taken ++ [u]) rest'
      else (cur, taken) :: scan_turn u [] rest'
  end.

Definition turn_blocks (us : list Utterance) : list (Utterance * list Utterance) :=
  match us with
  | [] => []
  | cur :: rest => scan_turn cur [] rest
  end.

(** The utterances a block covers, in input order. *)
Definition block_items (b : Utterance * list Utterance) : list Utterance :=
  b.1 :: b.2.

(** The texts of the block that belong to the speaker of the turn. *)
Definition own_texts (cur : Utterance) (taken : list Utterance) : list (list N) :=
  text <$> filter (fun u => speaker u = speaker cur) taken.

(** The utterances of the block that were skipped. *)
Definition skipped (b : Utterance * list Utterance) : list Utterance :=
  filter (fun u => speaker u <> speaker b.1) b.2.

Definition turn_of (b : Utterance * list Utterance) : Utterance :=
  mkUtterance (speaker b.1) (join [space] (text b.1 :: own_texts b.1 b.2)).

(** No two neighbours have the same speaker. *)
Fixpoint alternating (us : list Utterance) : Prop :=
  match us with
  | u :: (v :: _) as rest => speaker u <> speaker v /\ alternating rest
  | _ => True
  end.

(** What was taken into a turn from another speaker is a minimal
    interjection. *)
Definition only_interjections_skipped (b : Utterance * list Utterance) : Prop :=
  Forall (fun u => is_minimal_interjection (text u) = true) (skipped b).

(** No minimal interjection stands between two utterances of one speaker. *)
Fixpoint no_flanked_interjection (us : list Utterance) : Prop :=
  match us with
  | a :: rest =>
      match rest with
      | b :: c :: _ =>
          ~ (is_minimal_interjection (text b) = true /\ speaker c = speaker a)
      | _ => True
      end /\ no_flanked_interjection rest
  | [] => True
  end.

Definition single (u : Utterance) : Utterance * list Utterance := (u, []).

(** The input positions at which the blocks start, the first one at [i]. *)
Fixpoint block_starts (i : nat) (blocks : list (Utterance * list Utterance))
    : list nat :=
  match blocks with
  | [] => []
  | b :: bs => i :: block_starts (i + length (block_items b)) bs
  end.

(** ** Around the interjection test *)

(** The runtime's [lower] on a string of 7-bit characters. *)
Definition lower_agrees_on_ascii : Prop :=
  forall s, Forall (fun c => is_ascii c = true) s -> str_lower s = ascii_lower s.

(** [v] is [tok] with the case of some letters changed to upper case. *)
Definition case_variant (tok v : list N) : Prop :=
  Forall2 (fun t c => c = t \/ c = ascii_upper_char t) tok v.

(** The cleaned form of a text: lowercased, white space stripped,
    trailing [.,!?] removed. *)
Definition cleaned_form (text : list N) : list N :=
  rstrip_chars (lit ".,!?") (strip (str_lower text)).

(** What the proof uses of a token of the set: 7-bit characters without
    upper-case letters, no white space at either end, no punctuation at
    the end. *)
Definition token_ok (tok : list N) : bool :=
  forallb (fun t => is_ascii t && (ascii_lower_char t =? t)%N) tok
  && match tok with c :: _ => negb (isspace c) | [] => false end
  && match last tok with
     | Some d => negb (isspace d) && negb (char_in (lit ".,!?") d)
     | None => false
     end.

(** ** White space *)

(** The words of a string: its maximal runs of characters that are not
    white space ([s.split()] of the runtime). *)
Fixpoint words (s : list N) : list (list N) :=
  match s with
  | [] => []
  | c :: s' =>
      if isspace c then words s'
      else match s' with
           | [] => [[c]]
           | d :: _ =>
               if isspace d then [c] :: words s'
               else match words s' with
                    | w :: ws => (c :: w) :: ws
                    | [] => [[c]]
                    end
           end
  end.

(** A word: not empty, no white space in it. *)
Definition is_word (w : list N) : Prop :=
  w <> [] /\ Forall (fun c => isspace c = false) w.

Definition lead_space (in_run : bool) (s : list N) : list N :=
  if in_run then []
  else match s with
       | c :: _ => if isspace c then [space] else []
       | [] => []
       end.

Definition trail_space (s : list N) : list N :=
  match last s with
  | Some d => if isspace d && truthy (words s) then [space] else []
  | None => []
  end.

(** What the specification describes for [clean_text]: at most one
    trailing comma goes. *)
Definition drop_one_trailing_comma (s : list N) : list N :=
  match last s with
  | Some c => if (c =? comma)%N then removelast s else s
  | None => s
  end.

(** What is used of the runtime's [upper]: on 7-bit characters it is the
    7-bit mapping, and the upper case of a character that is not white
    space has no white space and starts with a character that is its own
    upper case. *)
Definition upper_well_behaved : Prop :=
  (forall c, is_ascii c = true -> char_upper c = [ascii_upper_char c])
  /\ (forall c, isspace c = false ->
        exists u us, char_upper c = u :: us
                     /\ Forall (fun x => isspace x = false) (u :: us)
                     /\ char_upper u = [u]).

(** A string in which white space only occurs as single spaces;
    [prev_space] tells that the character before the string is a space. *)
Fixpoint tidy (prev_space : bool) (s : list N) : Prop :=
  match s with
  | [] => True
  | c :: s' =>
      if isspace c then prev_space = false /\ c = space /\ tidy true s'
      else tidy false s'
  end.

(** ** Lines and the label convention *)

(** A string with a first and a last character that are not white space. *)
Definition trimmed (l : list N) : Prop :=
  exists c r r' d, l = c :: r /\ l = r' ++ [d]
                   /\ isspace c = false /\ isspace d = false.

(** The lines the parser looks at: stripped, blank ones left out. *)
Definition content_lines_of (ls : list (list N)) : list (list N) :=
  filter (fun l => l <> []) (strip <$> ls).

Definition content_lines (s : list N) : list (list N) :=
  content_lines_of (split_on newline s).

(** [sub] occurs in [s]. *)
Definition contains (s sub : list N) : Prop :=
  exists pre post, s = pre ++ sub ++ post.

(** The label convention of the raw transcript: a label line, the
    speaker followed by the suffix, then the text of the block; the
    blocks are separated by line breaks. *)
Definition render_block (p : list N * list N) : list N :=
  p.1 ++ AVATAR_SUFFIX ++ [newline] ++ p.2.

Definition render_raw (pairs : list (list N * list N)) : list N :=
  join [newline] (render_block <$> pairs).

(** A speaker that a label line gives back: it starts with a character
    that is not white space, and has no line break and no occurrence of
    the suffix in it. *)
Definition wf_speaker (sp : list N) : Prop :=
  (exists c r, sp = c :: r /\ isspace c = false)
  /\ (newline ∉ sp)
  /\ ~ contains sp AVATAR_SUFFIX.

(** A text that makes a block: it has a character that is not white
    space, and none of its lines, once stripped, ends in the suffix. *)
Definition wf_text (t : list N) : Prop :=
  (exists c, c ∈ t /\ isspace c = false)
  /\ Forall (fun l => endswith (strip l) AVATAR_SUFFIX = false)
            (split_on newline t).

(** The weaker condition of the specification: speakers and texts that
    are not empty, no line of a text ending in the suffix. *)
Definition claimed_wf (p : list N * list N) : Prop :=
  p.1 <> [] /\ p.2 <> []
  /\ Forall (fun l => endswith l AVATAR_SUFFIX = false) (split_on newline p.2).

(** The same speaker, and the same text once white space is collapsed. *)
Definition same_up_to_ws (p : list N * list N) (u : Utterance) : Prop :=
  speaker u = p.1
  /\ strip (collapse_ws (text u)) = strip (collapse_ws p.2).

(** The lines the parser sees of a block, and what it makes of them. *)
Definition block_content (p : list N * list N) : list (list N) :=
  (p.1 ++ AVATAR_SUFFIX) :: content_lines p.2.

Definition parsed_block (p : list N * list N) : Utterance :=
  mkUtterance p.1 (join [space] (content_lines p.2)).

(** In a block, every utterance of another speaker is directly followed
    by an utterance of the turn's speaker. *)
Definition foreign_then_own (cur : Utterance) (items : list Utterance) : Prop :=
  forall i u, items !! i = Some u -> speaker u <> speaker cur ->
    exists v, items !! S i = Some v /\ speaker v = speaker cur.


(** What every parsed utterance looks like: a speaker that is not empty
    and a text that starts and ends with a character that is not white
    space, both on one line. *)
Definition parsed_ok (u : Utterance) : Prop :=
  speaker u <> [] /\ (newline ∉ speaker u)
  /\ trimmed (text u) /\ (newline ∉ text u).

(** The invariant of the loop over the lines. *)
Definition parse_inv (st : parse_state) : Prop :=
  Forall parsed_ok (utterances st)
  /\ Forall (fun l => newline ∉ l) (current_text_parts st)
  /\ (forall sp, current_speaker st = Some sp -> newline ∉ sp).

(** A stripped line is a label line. *)
Definition is_label (line : list N) : bool := endswith line AVATAR_SUFFIX.

(** The blocks the parser has opened so far: the utterances it has, and
    one more if a speaker is pending. *)
Definition blocks_seen (st : parse_state) : nat :=
  length (utterances st)
  + match current_speaker st with Some _ => 1 | None => 0 end.


(** ** The document *)

(** The line of one turn in the formatted transcript. *)
Definition turn_line (utt : Utterance) : list N :=
  speaker utt ++ lit ": " ++ add_punctuation (text utt).

(** Lines with one empty line between every two of them. *)
Fixpoint blank_separated (ls : list (list N)) : list (list N) :=
  match ls with
  | [] => []
  | [l] => [l]
  | l :: ls' => l :: [] :: blank_separated ls'
  end.

(** [f"{date_str[:4]}-{date_str[4:6]}-{date_str[6:]}"] of both [main]s. *)
Definition formatted_date (date_str : list N) : list N :=
  take 4 date_str ++ lit "-" ++ take 2 (drop 4 date_str) ++ lit "-"
  ++ drop 6 date_str.

(** "Process transcript" in [main] of format_transcript.py: the merged
    turns of a raw text. *)
Definition process_transcript (raw_text : list N) : option (list Utterance) :=
  merge_utterances (parse_transcript raw_text).

(** "Format output" in [main] of format_transcript.py: the content that
    is written for the merged turns. *)
Definition output_content (date_str : list N) (merged : list Utterance) : list N :=
  (lit "# Cambly Session - " ++ formatted_date date_str ++ [newline; newline])
  ++ format_transcript merged ++ [newline].


(** * Proofs

    ** The merge loops and the turns *)

Lemma absorb_loop_spec (rest pre : list Utterance) (cur : Utterance)
    (taken : list Utterance) (combined : list (list N)) (fuel : nat) :
  length rest < fuel ->
  exists fs rest',
    rest = fs ++ rest' /\
    absorb_loop fuel (pre ++ rest) cur (length pre) combined
      = Some (length pre + length fs, combined ++ own_texts cur fs) /\
    scan_turn cur taken rest = (cur, taken ++ fs) :: turn_blocks rest'.
Proof.
  revert pre taken combined fuel.
  induction rest as [|u rest IH]; intros pre taken combined fuel Hfuel.
  - exists [], []. destruct fuel as [|fuel]; [simpl in Hfuel; lia|].
    simpl. rewrite !app_nil_r. rewrite lookup_ge_None_2 by lia.
    rewrite Nat.add_0_r. done.
  - destruct fuel as [|fuel]; [simpl in Hfuel; lia|]. simpl in Hfuel.
    cbn [absorb_loop scan_turn].
    rewrite list_lookup_middle by done.
    assert (Hpre : pre ++ u :: rest = (pre ++ [u]) ++ rest)
      by (by rewrite <- app_assoc).
    assert (Hlen : length pre + 1 = length (pre ++ [u]))
      by (rewrite length_app; simpl; lia).
    unfold same_speaker at 1.
    destruct (bool_decide (speaker u = speaker cur)) eqn:Hsame.
    + destruct (IH (pre ++ [u]) (taken ++ [u]) (combined ++ [text u]) fuel)
        as (fs & rest' & -> & Hloop & Hscan); [lia|].
      exists (u :: fs), rest'. split; [done|].
      rewrite Hpre, Hlen, Hloop, Hscan. split.
      * f_equal. f_equal; [rewrite length_app; simpl; lia|].
        unfold own_texts. apply bool_decide_eq_true in Hsame.
        rewrite filter_cons_True by done. rewrite fmap_cons.
        by rewrite <- app_assoc.
      * by rewrite <- app_assoc.
    + destruct (is_minimal_interjection (text u)) eqn:Hint; cbn [andb].
      * destruct rest as [|v rest2].
        { exists [], [u]. rewrite Hpre, Hlen.
          rewrite lookup_ge_None_2 by (rewrite app_nil_r; lia).
          simpl. rewrite !app_nil_r, Nat.add_0_r. done. }
        rewrite Hpre, Hlen. rewrite list_lookup_middle by done.
        cbn [returns_to]. unfold same_speaker at 1.
        destruct (bool_decide (speaker v = speaker cur)) eqn:Hv.
        -- destruct (IH (pre ++ [u]) (taken ++ [u]) combined fuel)
             as (fs & rest' & Hrest & Hloop & Hscan); [simpl in *; lia|].
           exists (u :: fs), rest'. split; [by rewrite Hrest|].
           rewrite Hloop, Hscan. split.
           ++ f_equal. f_equal; [rewrite length_app; simpl; lia|].
              unfold own_texts. apply bool_decide_eq_false in Hsame.
              by rewrite filter_cons_False by done.
           ++ by rewrite <- app_assoc.
        -- exists [], (u :: v :: rest2).
           simpl. rewrite !app_nil_r, Nat.add_0_r. done.
      * exists [], (u :: rest).
        simpl. rewrite !app_nil_r, Nat.add_0_r. done.
Qed.

Lemma merge_loop_spec (n : nat) :
  forall (rest pre merged : list Utterance) (fuel : nat),
    length rest <= n -> length rest < fuel ->
    merge_loop fuel (pre ++ rest) (length pre) merged
      = Some (merged ++ (turn_of <$> turn_blocks rest)).
Proof.
  induction n as [|n IH]; intros rest pre merged fuel Hn Hfuel;
    (destruct fuel as [|fuel]; [lia|]).
  - destruct rest; [|simpl in Hn; lia].
    simpl. rewrite app_nil_r, lookup_ge_None_2 by lia. by rewrite app_nil_r.
  - destruct rest as [|cur rest].
    { simpl. rewrite app_nil_r, lookup_ge_None_2 by lia. by rewrite app_nil_r. }
    cbn [merge_loop]. rewrite list_lookup_middle by done.
    destruct (absorb_loop_spec rest (pre ++ [cur]) cur [] [text cur]
                (S (length ((pre ++ [cur]) ++ rest))))
      as (fs & rest' & Hrest & Hloop & Hscan).
    { rewrite length_app. lia. }
    replace (length pre + 1) with (length (pre ++ [cur]))
      by (rewrite length_app; simpl; lia).
    replace (pre ++ cur :: rest) with ((pre ++ [cur]) ++ rest)
      by (by rewrite <- app_assoc).
    rewrite Hloop. cbn [turn_blocks]. rewrite Hscan, fmap_cons.
    subst rest. rewrite app_assoc, <- length_app.
    simpl in Hn, Hfuel. rewrite length_app in Hn, Hfuel.
    rewrite IH by lia.
    by rewrite <- app_assoc.
Qed.

(** The loops compute the turns of the declarative description, and they
    always return. *)
Lemma merge_utterances_blocks (us : list Utterance) :
  merge_utterances us = Some (turn_of <$> turn_blocks us).
Proof.
  unfold merge_utterances. destruct us as [|u us]; [done|].
  cbn [truthy negb].
  apply (merge_loop_spec (length (u :: us)) (u :: us) [] []); lia.
Qed.

(** *** Shape of the blocks *)

Lemma scan_turn_concat (rest : list Utterance) :
  forall cur taken,
    concat (block_items <$> scan_turn cur taken rest) = cur :: taken ++ rest.
Proof.
  induction rest as [|u rest IH]; intros cur taken; cbn [scan_turn].
  - simpl. by rewrite !app_nil_r.
  - destruct (same_speaker cur u);
      [|destruct (is_minimal_interjection (text u) && returns_to cur rest)].
    + rewrite IH. by rewrite <- app_assoc.
    + rewrite IH. by rewrite <- app_assoc.
    + rewrite fmap_cons. cbn [concat]. rewrite IH. unfold block_items. simpl.
      done.
Qed.

Lemma turn_blocks_concat (us : list Utterance) :
  concat (block_items <$> turn_blocks us) = us.
Proof. destruct us as [|u us]; [done|]. simpl. by rewrite scan_turn_concat. Qed.

Lemma scan_turn_skipped (rest : list Utterance) :
  forall cur taken,
    only_interjections_skipped (cur, taken) ->
    Forall only_interjections_skipped (scan_turn cur taken rest).
Proof.
  induction rest as [|u rest IH]; intros cur taken Htaken; cbn [scan_turn].
  - by constructor.
  - unfold same_speaker. case_bool_decide as Hsame.
    + apply IH. unfold only_interjections_skipped, skipped in *. simpl in *.
      rewrite filter_app. apply Forall_app. split; [done|].
      rewrite filter_cons_False by (intros ?; done). constructor.
    + destruct (is_minimal_interjection (text u)) eqn:Hint; cbn [andb].
      * destruct (returns_to cur rest).
        -- apply IH. unfold only_interjections_skipped, skipped in *.
           simpl in *. rewrite filter_app. apply Forall_app. split; [done|].
           rewrite filter_cons_True by done. by repeat constructor.
        -- constructor; [done|]. apply IH. constructor.
      * constructor; [done|]. apply IH. constructor.
Qed.

Lemma turn_blocks_skipped (us : list Utterance) :
  Forall only_interjections_skipped (turn_blocks us).
Proof.
  destruct us as [|u us]; [constructor|]. apply scan_turn_skipped. constructor.
Qed.

Lemma scan_turn_head (rest : list Utterance) :
  forall cur taken, exists taken' more,
    scan_turn cur taken rest = (cur, taken') :: more.
Proof.
  induction rest as [|u rest IH]; intros cur taken; cbn [scan_turn].
  - by eexists _, _.
  - destruct (same_speaker cur u); [apply IH|].
    destruct (is_minimal_interjection (text u) && returns_to cur rest);
      [apply IH|]. by eexists _, _.
Qed.

Lemma scan_turn_alternating (rest : list Utterance) :
  forall cur taken, alternating (turn_of <$> scan_turn cur taken rest).
Proof.
  induction rest as [|u rest IH]; intros cur taken; cbn [scan_turn].
  - done.
  - unfold same_speaker at 1. case_bool_decide as Hsame; [apply IH|].
    destruct (is_minimal_interjection (text u) && returns_to cur rest);
      [apply IH|].
    specialize (IH u []).
    destruct (scan_turn_head rest u []) as (tk & more & Heq).
    rewrite Heq in IH |- *. rewrite !fmap_cons in IH |- *.
    split; [|exact IH]. simpl. congruence.
Qed.

Lemma turn_of_single (u : Utterance) : turn_of (single u) = u.
Proof. by destruct u. Qed.

Lemma scan_turn_unchanged (rest : list Utterance) :
  forall cur,
    alternating (cur :: rest) -> no_flanked_interjection (cur :: rest) ->
    scan_turn cur [] rest = single <$> (cur :: rest).
Proof.
  induction rest as [|u rest IH]; intros cur Halt Hnf; [done|].
  cbn [scan_turn]. destruct Halt as [Hne Halt]. destruct Hnf as [Hfl Hnf].
  unfold same_speaker at 1. rewrite bool_decide_eq_false_2 by congruence.
  assert (is_minimal_interjection (text u) && returns_to cur rest = false)
    as ->.
  { destruct (is_minimal_interjection (text u)) eqn:Hint; [|done].
    destruct rest as [|v rest]; [done|]. simpl. unfold same_speaker.
    apply bool_decide_eq_false_2. intros Hv. apply Hfl. done. }
  rewrite IH by done. done.
Qed.

Lemma scan_turn_length (rest : list Utterance) :
  forall cur taken, length (scan_turn cur taken rest) <= S (length rest).
Proof.
  induction rest as [|u rest IH]; intros cur taken; cbn [scan_turn]; [done|].
  destruct (same_speaker cur u); [specialize (IH cur (taken ++ [u])); simpl; lia|].
  destruct (is_minimal_interjection (text u) && returns_to cur rest).
  - specialize (IH cur (taken ++ [u])). simpl. lia.
  - specialize (IH u []). simpl. lia.
Qed.

Lemma scan_turn_full_length (rest : list Utterance) :
  forall cur,
    alternating (cur :: rest) ->
    length (scan_turn cur [] rest) = S (length rest) ->
    no_flanked_interjection (cur :: rest).
Proof.
  induction rest as [|u rest IH]; intros cur Halt Hlen; [done|].
  cbn [scan_turn] in Hlen. destruct Halt as [Hne Halt].
  unfold same_speaker at 1 in Hlen.
  rewrite bool_decide_eq_false_2 in Hlen by congruence.
  destruct (is_minimal_interjection (text u) && returns_to cur rest) eqn:Hc.
  - pose proof (scan_turn_length rest cur ([] ++ [u])). simpl in *. lia.
  - simpl in Hlen. split; [|apply IH; [done|lia]].
    destruct rest as [|v rest]; [done|]. intros [Hint Hv].
    rewrite Hint in Hc. simpl in Hc. unfold same_speaker in Hc.
    by rewrite bool_decide_eq_true_2 in Hc.
Qed.

Lemma block_starts_length blocks : forall i,
  length (block_starts i blocks) = length blocks.
Proof. induction blocks as [|b bs IH]; intros i; simpl; [done|by rewrite IH]. Qed.

Lemma block_starts_ge blocks : forall i,
  Forall (fun x => i <= x) (block_starts i blocks).
Proof.
  induction blocks as [|b bs IH]; intros i; simpl; constructor; [lia|].
  eapply Forall_impl; [apply IH|]. simpl. intros; lia.
Qed.

Lemma block_starts_sorted blocks : forall i,
  StronglySorted lt (block_starts i blocks).
Proof.
  induction blocks as [|b bs IH]; intros i; simpl; constructor; [apply IH|].
  eapply Forall_impl; [apply block_starts_ge|]. simpl. intros; lia.
Qed.

Lemma block_starts_lookup blocks : forall i k b,
  blocks !! k = Some b ->
  exists d, block_starts i blocks !! k = Some (i + d)
            /\ concat (block_items <$> blocks) !! d = Some b.1.
Proof.
  induction blocks as [|b0 bs IH]; intros i k b Hk; [done|].
  destruct k as [|k]; simpl in Hk.
  - inversion Hk; subst. exists 0. simpl. by rewrite Nat.add_0_r.
  - destruct (IH (i + length (block_items b0)) k b Hk) as (d & Hd & Hc).
    exists (length (block_items b0) + d). split.
    + change (block_starts i (b0 :: bs) !! S k)
        with (block_starts (i + length (block_items b0)) bs !! k).
      rewrite Hd. f_equal. lia.
    + rewrite fmap_cons. cbn [concat].
      rewrite lookup_app_r by lia.
      by replace (length (block_items b0) + d - length (block_items b0))
        with d by lia.
Qed.

(** *** The last utterance of the input *)

Lemma scan_turn_last (rest : list Utterance) :
  forall cur taken u, exists bs b,
    scan_turn cur taken (rest ++ [u]) = bs ++ [b]
    /\ (b = single u
        \/ exists c tk, b = (c, tk ++ [u]) /\ speaker u = speaker c).
Proof.
  induction rest as [|v rest IH]; intros cur taken u.
  - cbn [app scan_turn returns_to]. rewrite andb_false_r.
    unfold same_speaker. case_bool_decide as Hsame.
    + exists [], (cur, taken ++ [u]). split; [done|]. right. by eexists _, _.
    + exists [(cur, taken)], (single u). split; [done|]. by left.
  - rewrite <- app_comm_cons. cbn [scan_turn].
    destruct (same_speaker cur v); [apply IH|].
    destruct (is_minimal_interjection (text v) && returns_to cur (rest ++ [u]));
      [apply IH|].
    destruct (IH v [] u) as (bs & b & Heq & Hb).
    exists ((cur, taken) :: bs), b. split; [|done]. by rewrite Heq.
Qed.

Lemma turn_blocks_last (pre : list Utterance) (u : Utterance) :
  exists bs b,
    turn_blocks (pre ++ [u]) = bs ++ [b]
    /\ (b = single u
        \/ exists c tk, b = (c, tk ++ [u]) /\ speaker u = speaker c).
Proof.
  destruct pre as [|c rest].
  - exists [], (single u). split; [done|]. by left.
  - apply scan_turn_last.
Qed.

(** ** The claims about the merge *)

(** C10: for every input, any two adjacent turns of the merge output have
    distinct speakers: the utterance at which a turn opens has another
    speaker than the turn closed just before it.  The output is given by
    consecutive blocks of the input, a turn carrying the speaker of the
    utterance its block starts with. *)
Theorem merge_adjacent_turns_distinct (us : list Utterance) :
  exists blocks,
    merge_utterances us = Some (turn_of <$> blocks)
    /\ concat (block_items <$> blocks) = us
    /\ alternating (turn_of <$> blocks)
    /\ alternating (fst <$> blocks).
Proof.
  exists (turn_blocks us).
  split; [apply merge_utterances_blocks|].
  split; [apply turn_blocks_concat|].
  assert (Halt : alternating (turn_of <$> turn_blocks us)).
  { destruct us as [|u us]; [done|]. apply scan_turn_alternating. }
  split; [done|].
  revert Halt. generalize (turn_blocks us). intros blocks.
  induction blocks as [|b [|b' bs] IH]; [done..|].
  rewrite !fmap_cons. intros [Hne Halt]. split; [exact Hne|].
  apply IH. exact Halt.
Qed.

(** C5: for every input, each turn of the merge output carries the speaker
    of the input utterance it was opened at (its text starts with that
    utterance's text), and the turns come in the order of the positions
    [starts] of those utterances in the input. *)
Theorem merge_keeps_speaker_and_order (us : list Utterance) :
  exists out starts,
    merge_utterances us = Some out
    /\ length starts = length out
    /\ StronglySorted lt starts
    /\ forall k t, out !! k = Some t ->
         exists i u more,
           starts !! k = Some i /\ us !! i = Some u
           /\ speaker t = speaker u
           /\ text t = join [space] (text u :: more).
Proof.
  exists (turn_of <$> turn_blocks us), (block_starts 0 (turn_blocks us)).
  split; [apply merge_utterances_blocks|].
  split; [by rewrite block_starts_length, length_fmap|].
  split; [apply block_starts_sorted|].
  intros k t Hk. rewrite list_lookup_fmap in Hk.
  destruct (turn_blocks us !! k) as [b|] eqn:Hb; [|done].
  inversion Hk; subst t.
  destruct (block_starts_lookup (turn_blocks us) 0 k b Hb) as (d & Hd & Hc).
  rewrite turn_blocks_concat in Hc.
  exists d, b.1, (own_texts b.1 b.2). done.
Qed.

(** C2, as the code has it: on an input in which every element's speaker
    differs from its neighbours', the merge returns the input unchanged
    exactly when no element whose text is a minimal interjection stands
    between two elements of one speaker. *)
Theorem merge_unchanged_iff (us : list Utterance) :
  alternating us ->
  (merge_utterances us = Some us <-> no_flanked_interjection us).
Proof.
  intros Halt. rewrite merge_utterances_blocks.
  destruct us as [|cur rest]; [done|]. cbn [turn_blocks]. split.
  - intros Heq. apply scan_turn_full_length; [done|].
    inversion Heq as [Heq'].
    apply (f_equal length) in Heq'. rewrite length_fmap in Heq'.
    exact Heq'.
  - intros Hnf. rewrite scan_turn_unchanged by done.
    f_equal. rewrite <- list_fmap_compose.
    rewrite <- (list_fmap_id (cur :: rest)) at 2.
    apply list_fmap_ext. intros ? u ?. apply turn_of_single.
Qed.

(** C6: a minimal interjection at the very end of the input is never
    skipped.  In the loops: when the scan stands at the last utterance,
    whose speaker is not the current turn's and whose text is a minimal
    interjection, the inner loop stops there with nothing added, and the
    outer loop, resumed at that index, appends the interjection as a turn
    of its own and returns.  For the whole run: the last turn of the
    output is either the last utterance alone, or a turn of the last
    utterance's own speaker that ends with it. *)
Theorem final_interjection_own_turn :
  (forall (us : list Utterance) (current u : Utterance) (j fuel : nat)
          (combined : list (list N)) (merged : list Utterance),
      us !! j = Some u -> S j = length us ->
      speaker u <> speaker current ->
      is_minimal_interjection (text u) = true ->
      absorb_loop (S fuel) us current j combined = Some (j, combined)
      /\ merge_loop (S (S fuel)) us j merged
         = Some (merged ++ [mkUtterance (speaker u) (text u)]))
  /\ (forall (pre : list Utterance) (u : Utterance),
      exists out t,
        merge_utterances (pre ++ [u]) = Some (out ++ [t])
        /\ (t = mkUtterance (speaker u) (text u)
            \/ exists c tk, t = turn_of (c, tk ++ [u])
                            /\ speaker u = speaker c)).
Proof.
  split.
  - intros us current u j fuel combined merged Hj Hlast Hne Hint. split.
    + cbn [absorb_loop]. rewrite Hj.
      rewrite bool_decide_eq_false_2 by done. rewrite Hint.
      by rewrite lookup_ge_None_2 by lia.
    + cbn [merge_loop absorb_loop]. rewrite Hj.
      rewrite lookup_ge_None_2 by lia. cbn [join].
      by rewrite lookup_ge_None_2 by lia.
  - intros pre u. rewrite merge_utterances_blocks.
    destruct (turn_blocks_last pre u) as (bs & b & -> & Hb).
    exists (turn_of <$> bs), (turn_of b). split; [by rewrite fmap_app|].
    destruct Hb as [-> | (c & tk & -> & Hc)].
    + left. rewrite turn_of_single. by destruct u.
    + right. by exists c, tk.
Qed.

(** ** Stripping *)

Lemma lstrip_by_all (p : N -> bool) (t x : list N) :
  Forall (fun c => p c = true) t -> lstrip_by p (t ++ x) = lstrip_by p x.
Proof. induction 1 as [|c t Hc _ IH]; [done|]. simpl. by rewrite Hc. Qed.

Lemma lstrip_by_keep (p : N -> bool) (c : N) (s : list N) :
  p c = false -> lstrip_by p (c :: s) = c :: s.
Proof. intros Hc. simpl. by rewrite Hc. Qed.

Lemma rstrip_by_snoc_drop (p : N -> bool) (s : list N) (c : N) :
  p c = true -> rstrip_by p (s ++ [c]) = rstrip_by p s.
Proof. intros Hc. unfold rstrip_by. rewrite rev_app_distr. simpl. by rewrite Hc. Qed.

Lemma rstrip_by_snoc_keep (p : N -> bool) (s : list N) (c : N) :
  p c = false -> rstrip_by p (s ++ [c]) = s ++ [c].
Proof.
  intros Hc. unfold rstrip_by. rewrite rev_app_distr. simpl. rewrite Hc.
  change (c :: rev s) with (rev [c] ++ rev s).
  by rewrite <- rev_app_distr, rev_involutive.
Qed.

Lemma rstrip_by_all (p : N -> bool) (s t : list N) :
  Forall (fun c => p c = true) t -> rstrip_by p (s ++ t) = rstrip_by p s.
Proof.
  intros Ht. unfold rstrip_by. rewrite rev_app_distr.
  rewrite lstrip_by_all; [done|]. by apply Forall_rev.
Qed.

(** The result of stripping on the right does not end with a stripped
    character, and what was stripped is a run of such characters. *)
Lemma lstrip_by_split (p : N -> bool) (s : list N) :
  exists t, s = t ++ lstrip_by p s /\ Forall (fun c => p c = true) t.
Proof.
  induction s as [|c s (t & Hs & Ht)]; [by exists []|].
  simpl. destruct (p c) eqn:Hc.
  - exists (c :: t). split; [by rewrite <- app_comm_cons, <- Hs|by constructor].
  - by exists [].
Qed.

Lemma lstrip_by_head (p : N -> bool) (s : list N) (c : N) (r : list N) :
  lstrip_by p s = c :: r -> p c = false.
Proof.
  induction s as [|d s IH]; [done|]. simpl. destruct (p d) eqn:Hd; [done|].
  intros [= <- _]. done.
Qed.

Lemma rstrip_by_split (p : N -> bool) (s : list N) :
  exists t, s = rstrip_by p s ++ t /\ Forall (fun c => p c = true) t.
Proof.
  destruct (lstrip_by_split p (rev s)) as (t & Hs & Ht).
  exists (rev t). split; [|by apply Forall_rev].
  unfold rstrip_by. rewrite <- rev_app_distr, <- Hs. by rewrite rev_involutive.
Qed.

Lemma rstrip_by_last (p : N -> bool) (s r : list N) (c : N) :
  rstrip_by p s = r ++ [c] -> p c = false.
Proof.
  unfold rstrip_by. intros H. apply (f_equal (@rev N)) in H.
  rewrite rev_involutive, rev_app_distr in H. simpl in H.
  by apply lstrip_by_head in H.
Qed.

(** ** The interjection test *)

Lemma tokens_ok (tok : list N) :
  tok ∈ MINIMAL_INTERJECTIONS -> token_ok tok = true.
Proof.
  unfold MINIMAL_INTERJECTIONS. rewrite elem_of_list_to_set.
  intros Hin. apply list_elem_of_In in Hin. revert tok Hin.
  apply forallb_forall. vm_compute. reflexivity.
Qed.

Lemma ascii_lower_upper (t : N) :
  ascii_lower_char t = t -> ascii_lower_char (ascii_upper_char t) = t.
Proof. unfold ascii_lower_char, ascii_upper_char. intros H. case_leb. Qed.

Lemma ascii_upper_is_ascii (t : N) :
  is_ascii t = true -> is_ascii (ascii_upper_char t) = true.
Proof.
  unfold is_ascii, ascii_upper_char. intros H. case_leb; done.
Qed.

Lemma punct_cases (c : N) :
  char_in (lit ".,!?") c = true -> c = 46%N \/ c = 44%N \/ c = 33%N \/ c = 63%N.
Proof.
  unfold char_in. change (lit ".,!?") with [46; 44; 33; 63]%N.
  cbn [existsb]. rewrite !orb_true_iff, !N.eqb_eq.
  intros [H | [H | [H | [H | H]]]]; try discriminate H; subst; eauto.
Qed.

Lemma punct_no_space (c : N) :
  char_in (lit ".,!?") c = true -> isspace c = false.
Proof. intros H. destruct (punct_cases c H) as [-> | [-> | [-> | ->]]]; done. Qed.

Lemma punct_ascii_lower (c : N) :
  char_in (lit ".,!?") c = true ->
  is_ascii c = true /\ ascii_lower_char c = c.
Proof. intros H. destruct (punct_cases c H) as [-> | [-> | [-> | ->]]]; done. Qed.

Lemma case_variant_lower (tok v : list N) :
  forallb (fun t => is_ascii t && (ascii_lower_char t =? t)%N) tok = true ->
  case_variant tok v ->
  Forall (fun c => is_ascii c = true) v /\ ascii_lower v = tok.
Proof.
  intros Hok Hv. induction Hv as [|t c tok v Hc Hv IH]; [done|].
  simpl in Hok. apply andb_true_iff in Hok as [Ht Hok].
  apply andb_true_iff in Ht as [Hascii Hlow]. apply N.eqb_eq in Hlow.
  destruct (IH Hok) as [IH1 IH2]. unfold ascii_lower in *. split.
  - constructor; [|done]. destruct Hc as [->| ->]; [done|].
    by apply ascii_upper_is_ascii.
  - rewrite fmap_cons, IH2. f_equal.
    destruct Hc as [->| ->]; [done|]. by apply ascii_lower_upper.
Qed.

Lemma strip_ends (c : N) (r s : list N) (d : N) :
  isspace c = false -> isspace d = false -> c :: r = s ++ [d] ->
  strip (c :: r) = c :: r.
Proof.
  intros Hc Hd Heq. unfold strip. rewrite lstrip_by_keep by done.
  rewrite Heq. by apply rstrip_by_snoc_keep.
Qed.

(** A token of the set, in any letter case and followed by any run of
    [.,!?], cleans to the token. *)
Lemma cleaned_variant (tok v trail : list N) :
  lower_agrees_on_ascii ->
  tok ∈ MINIMAL_INTERJECTIONS -> case_variant tok v ->
  Forall (fun c => char_in (lit ".,!?") c = true) trail ->
  cleaned_form (v ++ trail) = tok.
Proof.
  intros Hlower Htok Hv Htrail. apply tokens_ok in Htok.
  unfold token_ok in Htok. apply andb_true_iff in Htok as [Htok Hlast].
  apply andb_true_iff in Htok as [Hchars Hhead].
  destruct (case_variant_lower tok v Hchars Hv) as [Hascii Hlow].
  unfold cleaned_form. rewrite Hlower.
  2:{ apply Forall_app. split; [done|].
      eapply Forall_impl; [exact Htrail|]. intros c Hc.
      by apply punct_ascii_lower. }
  unfold ascii_lower in *. rewrite fmap_app, Hlow.
  assert (Htr : ascii_lower_char <$> trail = trail).
  { induction Htrail as [|c t Hc _ IH]; [done|].
    rewrite fmap_cons, IH. f_equal. by apply punct_ascii_lower. }
  rewrite Htr.
  destruct tok as [|c r]; [done|].
  destruct (last (c :: r)) as [d|] eqn:Hd; [|done].
  apply andb_true_iff in Hlast as [Hdsp Hdp].
  apply negb_true_iff in Hhead, Hdsp, Hdp.
  apply last_Some in Hd as (r' & Hr').
  assert (Hstrip : strip ((c :: r) ++ trail) = (c :: r) ++ trail).
  { destruct trail as [|z trail _] using rev_ind.
    - rewrite app_nil_r. by eapply strip_ends.
    - apply Forall_app in Htrail as [_ Hz]. inversion Hz; subst.
      eapply (strip_ends c (r ++ trail ++ [z]) ((c :: r) ++ trail) z);
        [done|by apply punct_no_space|].
      by rewrite <- app_assoc. }
  rewrite Hstrip. unfold rstrip_chars. rewrite rstrip_by_all by done.
  rewrite Hr'. by apply rstrip_by_snoc_keep.
Qed.

(** C7: the test recognizes exactly the fixed set.  Every token of the
    set, with the case of its letters changed and any number of the
    characters [.,!?] appended, is a minimal interjection; a text is a
    minimal interjection only if its cleaned form is in the set; and an
    utterance the merge takes into the turn of another speaker has a
    cleaned form in the set. *)
Theorem interjection_set_exact :
  lower_agrees_on_ascii ->
  (forall tok v trail,
      tok ∈ MINIMAL_INTERJECTIONS -> case_variant tok v ->
      Forall (fun c => char_in (lit ".,!?") c = true) trail ->
      is_minimal_interjection (v ++ trail) = true)
  /\ (forall text,
      cleaned_form text ∉ MINIMAL_INTERJECTIONS ->
      is_minimal_interjection text = false)
  /\ (forall us, exists blocks,
      merge_utterances us = Some (turn_of <$> blocks)
      /\ concat (block_items <$> blocks) = us
      /\ forall b u, b ∈ blocks -> u ∈ b.2 -> speaker u <> speaker b.1 ->
           cleaned_form (text u) ∈ MINIMAL_INTERJECTIONS).
Proof.
  intros Hlower. split; [|split].
  - intros tok v trail Htok Hv Htrail.
    pose proof (cleaned_variant tok v trail Hlower Htok Hv Htrail) as Hc.
    unfold is_minimal_interjection. unfold cleaned_form in Hc. rewrite Hc.
    by apply bool_decide_eq_true_2.
  - intros text Hnot. unfold is_minimal_interjection.
    by apply bool_decide_eq_false_2.
  - intros us. exists (turn_blocks us).
    split; [apply merge_utterances_blocks|].
    split; [apply turn_blocks_concat|].
    intros b u Hb Hu Hne.
    pose proof (turn_blocks_skipped us) as Hall.
    rewrite Forall_forall in Hall. specialize (Hall b Hb).
    unfold only_interjections_skipped, skipped in Hall.
    rewrite Forall_forall in Hall.
    assert (Hint : is_minimal_interjection (text u) = true).
    { apply Hall. apply list_elem_of_filter. done. }
    unfold is_minimal_interjection in Hint.
    by apply bool_decide_eq_true in Hint.
Qed.

Lemma interjection_mm_hmm :
  lower_agrees_on_ascii -> is_minimal_interjection (lit "mm-hmm") = true.
Proof.
  intros Hlower. unfold is_minimal_interjection. rewrite Hlower.
  - vm_compute. reflexivity.
  - apply Forall_forall. intros c Hc. apply list_elem_of_In in Hc.
    revert c Hc. apply forallb_forall. vm_compute. reflexivity.
Qed.

(** C1, as the code has it: the text of each turn is the space-joined
    concatenation, in input order, of the texts of the utterances of the
    turn's own speaker in the block of the input that the turn covers; the
    other utterances of the block are minimal interjections of another
    speaker and their text is left out.  In particular the utterances
    (A, I think so), (B, mm-hmm), (A, It was good) merge into the single
    turn (A, I think so It was good). *)
Theorem merge_turn_text :
  lower_agrees_on_ascii ->
  (forall us, exists blocks,
      merge_utterances us = Some (turn_of <$> blocks)
      /\ concat (block_items <$> blocks) = us
      /\ Forall (fun b =>
           text (turn_of b)
             = join [space]
                 (text <$> filter (fun u => speaker u = speaker b.1)
                                  (block_items b))
           /\ Forall (fun u => is_minimal_interjection (text u) = true)
                (filter (fun u => speaker u <> speaker b.1) (block_items b)))
           blocks)
  /\ merge_utterances
       [mkUtterance (lit "A") (lit "I think so");
        mkUtterance (lit "B") (lit "mm-hmm");
        mkUtterance (lit "A") (lit "It was good")]
     = Some [mkUtterance (lit "A") (lit "I think so It was good")].
Proof.
  intros Hlower. split.
  - intros us. exists (turn_blocks us).
    split; [apply merge_utterances_blocks|].
    split; [apply turn_blocks_concat|].
    eapply Forall_impl; [apply turn_blocks_skipped|].
    intros [cur taken] Hsk. unfold block_items. cbn [fst snd]. split.
    + rewrite filter_cons_True by done. done.
    + rewrite filter_cons_False by (intros H; by apply H). exact Hsk.
  - rewrite merge_utterances_blocks. cbn [turn_blocks scan_turn text].
    rewrite (interjection_mm_hmm Hlower).
    vm_compute. reflexivity.
Qed.

(** ** White-space normalization *)

Lemma words_nil_spaces (s : list N) :
  words s = [] -> Forall (fun c => isspace c = true) s.
Proof.
  induction s as [|c s IH]; [done|]. simpl.
  destruct (isspace c) eqn:Hc; [by constructor; auto|].
  destruct s as [|d s]; [done|]. destruct (isspace d); [done|].
  by destruct (words (d :: s)).
Qed.

Lemma words_head_nonspace (c : N) (s : list N) :
  isspace c = false -> exists w ws, words (c :: s) = (c :: w) :: ws.
Proof.
  intros Hc. cbn [words]. rewrite Hc.
  destruct s as [|d s]; [by eexists _, _|].
  destruct (isspace d); [by eexists _, _|].
  destruct (words (d :: s)); by eexists _, _.
Qed.

Lemma words_are_words (s : list N) : Forall is_word (words s).
Proof.
  induction s as [|c s IH]; [constructor|]. cbn [words].
  destruct (isspace c) eqn:Hc; [done|].
  assert (Hone : is_word [c]) by (split; [done|by repeat constructor]).
  destruct s as [|d s]; [by repeat constructor|].
  destruct (isspace d); [by constructor|].
  destruct (words (d :: s)) as [|w ws]; [by repeat constructor|].
  inversion IH as [|? ? [Hw1 Hw2] Hws]; subst.
  constructor; [|done]. split; [done|by constructor].
Qed.

Lemma join_cons2 (sep x y : list N) (r : list (list N)) :
  join sep (x :: y :: r) = x ++ sep ++ join sep (y :: r).
Proof. done. Qed.

Lemma join_cons_char (sep w : list N) (c : N) (ws : list (list N)) :
  join sep ((c :: w) :: ws) = c :: join sep (w :: ws).
Proof. destruct ws; done. Qed.

Lemma collapse_from_words (s : list N) : forall in_run,
  collapse_from in_run s
  = lead_space in_run s ++ join [space] (words s) ++ trail_space s.
Proof.
  induction s as [|c s IH]; intros in_run.
  { by destruct in_run. }
  cbn [collapse_from]. destruct (isspace c) eqn:Hc.
  - assert (Htrail : trail_space (c :: s) = trail_space s).
    { unfold trail_space. cbn [words]. rewrite Hc.
      destruct s as [|d s]; [|by rewrite last_cons_cons].
      simpl. by rewrite Hc. }
    assert (Hw : words (c :: s) = words s) by (cbn [words]; by rewrite Hc).
    rewrite Htrail, Hw. rewrite (IH true).
    destruct in_run; cbn [lead_space]; rewrite ?Hc; done.
  - assert (Hlead : lead_space in_run (c :: s) = []).
    { unfold lead_space. rewrite Hc. by destruct in_run. }
    rewrite Hlead. cbn [app]. rewrite (IH false).
    destruct s as [|d s].
    { unfold trail_space. simpl. by rewrite Hc. }
    assert (Htrail : match words (d :: s) with
                     | [] => trail_space (d :: s) = []
                             /\ trail_space (c :: d :: s) = [space]
                     | _ :: _ => trail_space (c :: d :: s) = trail_space (d :: s)
                     end).
    { unfold trail_space. rewrite last_cons_cons.
      destruct (words_head_nonspace c (d :: s) Hc) as (w0 & ws0 & ->).
      destruct (words (d :: s)) eqn:Hws.
      2:{ by destruct (last (d :: s)). }
      apply words_nil_spaces in Hws.
      destruct (last (d :: s)) as [e|] eqn:He; [|by apply last_None in He].
      apply last_Some in He as (r & Hr). rewrite Hr in Hws.
      apply Forall_app in Hws as [_ Hws]. inversion Hws as [|? ? He' _]; subst.
      rewrite He'. done. }
    assert (Hcw : words (c :: d :: s)
                  = if isspace d then [c] :: words (d :: s)
                    else match words (d :: s) with
                         | w :: ws => (c :: w) :: ws
                         | [] => [[c]]
                         end).
    { cbn [words]. by rewrite Hc. }
    rewrite Hcw. cbn [lead_space].
    destruct (isspace d) eqn:Hd.
    + destruct (words (d :: s)) as [|w ws] eqn:Hws.
      * destruct Htrail as [-> ->]. done.
      * rewrite Htrail. by rewrite join_cons2.
    + destruct (words_head_nonspace d s Hd) as (w & ws & Hws).
      rewrite Hws in Htrail |- *. rewrite Htrail. by rewrite (join_cons_char [space] (d :: w) c ws).
Qed.

Lemma word_trimmed (w : list N) : is_word w -> trimmed w.
Proof.
  intros [Hne Hw]. destruct w as [|c w]; [done|].
  destruct (last (c :: w)) as [d|] eqn:Hd; [|by apply last_None in Hd].
  apply last_Some in Hd as [r' Hr']. exists c, w, r', d.
  split; [done|]. split; [done|]. split; [by inversion Hw|].
  rewrite Hr' in Hw. apply Forall_app in Hw as [_ Hd]. by inversion Hd.
Qed.

Lemma join_trimmed (ls : list (list N)) :
  Forall trimmed ls -> ls <> [] -> trimmed (join [space] ls).
Proof.
  induction 1 as [|l ls Hl Hls IH]; [done|]. intros _.
  destruct ls as [|l2 ls]; [exact Hl|].
  destruct Hl as (c & r & r' & d & -> & _ & Hc & _).
  destruct IH as (c2 & r2 & r2' & d2 & H1 & H2 & H3 & H4); [done|].
  rewrite join_cons2.
  exists c, (r ++ [space] ++ join [space] (l2 :: ls)).
  exists ((c :: r) ++ [space] ++ r2'), d2.
  split; [done|]. split; [|done].
  rewrite H2. by rewrite <- !app_assoc.
Qed.

Lemma strip_core (p x q : list N) :
  Forall (fun c => isspace c = true) p ->
  Forall (fun c => isspace c = true) q ->
  x = [] \/ trimmed x ->
  strip (p ++ x ++ q) = x.
Proof.
  intros Hp Hq Hx. unfold strip. rewrite lstrip_by_all by done.
  destruct Hx as [-> | (c & r & r' & d & Hx1 & Hx2 & Hc & Hd)].
  - cbn [app]. rewrite <- (app_nil_r q), lstrip_by_all by done. done.
  - rewrite Hx1. rewrite <- app_comm_cons, lstrip_by_keep by done.
    rewrite app_comm_cons, <- Hx1. rewrite rstrip_by_all by done.
    rewrite Hx2. by apply rstrip_by_snoc_keep.
Qed.

Lemma lead_space_spaces (b : bool) (s : list N) :
  Forall (fun c => isspace c = true) (lead_space b s).
Proof.
  unfold lead_space. destruct b; [constructor|].
  destruct s as [|c s]; [constructor|].
  destruct (isspace c); by repeat constructor.
Qed.

Lemma trail_space_spaces (s : list N) :
  Forall (fun c => isspace c = true) (trail_space s).
Proof.
  unfold trail_space. destruct (last s) as [d|]; [|constructor].
  destruct (isspace d && truthy (words s)); by repeat constructor.
Qed.

Lemma join_words_core (ws : list (list N)) :
  Forall is_word ws -> join [space] ws = [] \/ trimmed (join [space] ws).
Proof.
  intros Hws. destruct ws as [|w ws]; [by left|].
  right. apply join_trimmed; [|done].
  eapply Forall_impl; [exact Hws|]. apply word_trimmed.
Qed.

(** Collapsing and trimming leaves the words, one space between them. *)
Lemma normalize_words (s : list N) :
  strip (collapse_ws s) = join [space] (words s).
Proof.
  unfold collapse_ws. rewrite collapse_from_words.
  apply strip_core;
    [apply lead_space_spaces|apply trail_space_spaces|].
  apply join_words_core, words_are_words.
Qed.

(** ** clean_text *)

Lemma all_commas (t : list N) :
  Forall (fun c => char_in [comma] c = true) t ->
  t = replicate (length t) comma.
Proof.
  induction 1 as [|c t Hc _ IH]; [done|]. simpl. rewrite <- IH. f_equal.
  unfold char_in in Hc. simpl in Hc. rewrite orb_false_r in Hc.
  by apply N.eqb_eq in Hc.
Qed.

(** C3, as the code has it: the normalizer first collapses the runs of
    white space to single spaces and trims both ends, which leaves the
    words of the input with one space between them, and then removes
    every comma at the end of that string: what it returns does not end
    in a comma, and the normalized string is the result followed by the
    [k] commas that were removed. *)
Theorem clean_text_drops_trailing_commas (s : list N) :
  exists k,
    strip (collapse_ws s) = join [space] (words s)
    /\ join [space] (words s) = clean_text s ++ replicate k comma
    /\ last (clean_text s) <> Some comma.
Proof.
  unfold clean_text, rstrip_chars. rewrite normalize_words.
  destruct (rstrip_by_split (char_in [comma]) (join [space] (words s)))
    as (t & Ht & Hall).
  exists (length t). split; [done|]. split.
  - rewrite <- (all_commas t Hall). exact Ht.
  - intros Hlast. apply last_Some in Hlast as [r Hr].
    apply rstrip_by_last in Hr. done.
Qed.

(** ** add_punctuation *)

Lemma collapse_from_tidy (s : list N) : forall b, tidy b (collapse_from b s).
Proof.
  induction s as [|c s IH]; intros b; [done|]. cbn [collapse_from].
  destruct (isspace c) eqn:Hc.
  - destruct b; [apply IH|]. cbn [tidy]. change (isspace space) with true.
    cbv iota. auto.
  - cbn [tidy]. rewrite Hc. apply IH.
Qed.

Lemma tidy_collapse_from (s : list N) : forall b,
  tidy b s -> collapse_from b s = s.
Proof.
  induction s as [|c s IH]; intros b; [done|]. cbn [collapse_from tidy].
  destruct (isspace c) eqn:Hc.
  - intros (-> & -> & Ht). f_equal. by apply IH.
  - intros Ht. f_equal. by apply IH.
Qed.

Lemma tidy_app_l (x y : list N) : forall b, tidy b (x ++ y) -> tidy b x.
Proof.
  induction x as [|c x IH]; intros b; [done|]. cbn [app tidy].
  destruct (isspace c); [|apply IH].
  intros (? & ? & ?). eauto.
Qed.

Lemma tidy_lstrip (s : list N) : forall b,
  tidy b s -> tidy false (lstrip_by isspace s).
Proof.
  induction s as [|c s IH]; intros b; [done|]. cbn [tidy lstrip_by].
  destruct (isspace c) eqn:Hc.
  - intros (_ & _ & Ht). by eapply IH.
  - intros Ht. cbn [tidy]. by rewrite Hc.
Qed.

Lemma tidy_rstrip (p : N -> bool) (s : list N) (b : bool) :
  tidy b s -> tidy b (rstrip_by p s).
Proof.
  destruct (rstrip_by_split p s) as (t & Hs & _). rewrite Hs at 1.
  apply tidy_app_l.
Qed.

Lemma tidy_snoc (s : list N) (c : N) : forall b,
  isspace c = false -> tidy b s -> tidy b (s ++ [c]).
Proof.
  intros b Hc. revert b.
  induction s as [|d s IH]; intros b; cbn [app tidy].
  - by rewrite Hc.
  - destruct (isspace d); [|apply IH]. intros (? & ? & ?). eauto.
Qed.

Lemma tidy_nonspace_app (us s : list N) (b : bool) :
  Forall (fun x => isspace x = false) us -> tidy false s ->
  us <> [] -> tidy b (us ++ s).
Proof.
  intros Hus Hs. revert b.
  induction Hus as [|u us Hu Hus IH]; intros b Hne; [done|].
  cbn [app tidy]. rewrite Hu. destruct us as [|u' us]; [done|].
  by apply IH.
Qed.

Lemma clean_text_tidy (s : list N) : tidy false (clean_text s).
Proof.
  unfold clean_text, rstrip_chars, strip. do 2 apply tidy_rstrip.
  eapply tidy_lstrip. apply collapse_from_tidy.
Qed.

Lemma clean_text_head (s : list N) (c : N) (r : list N) :
  clean_text s = c :: r -> isspace c = false.
Proof.
  unfold clean_text, rstrip_chars, strip. intros H.
  destruct (rstrip_by_split (char_in [comma])
              (rstrip_by isspace (lstrip_by isspace (collapse_ws s))))
    as (t1 & H1 & _).
  destruct (rstrip_by_split isspace (lstrip_by isspace (collapse_ws s)))
    as (t2 & H2 & _).
  rewrite H in H1. rewrite H1 in H2. simpl in H2.
  by apply lstrip_by_head in H2.
Qed.

(** A string that is tidy, starts with no white space and ends with a
    terminal mark is a fixed point of [clean_text]. *)
Lemma clean_text_fixed (c d : N) (r s : list N) :
  tidy false (c :: r) -> isspace c = false -> c :: r = s ++ [d] ->
  char_in (lit ".!?") d = true ->
  clean_text (c :: r) = c :: r.
Proof.
  intros Ht Hc Hs Hd. unfold clean_text, collapse_ws.
  rewrite tidy_collapse_from by done.
  assert (Hdsp : isspace d = false /\ char_in [comma] d = false).
  { unfold char_in in Hd. change (lit ".!?") with [46; 33; 63]%N in Hd.
    cbn [existsb] in Hd. rewrite !orb_true_iff, !N.eqb_eq in Hd.
    destruct Hd as [-> | [-> | [-> | H]]]; [done..|discriminate H]. }
  destruct Hdsp as [Hd1 Hd2].
  rewrite (strip_ends c r s d) by done.
  unfold rstrip_chars. rewrite Hs. by apply rstrip_by_snoc_keep.
Qed.

Lemma capitalize_first_cons (x : N) (rest : list N) :
  capitalize_first (x :: rest) = char_upper x ++ rest.
Proof. destruct rest; simpl; [by rewrite app_nil_r|done]. Qed.

Lemma add_period_terminal (s : list N) (d : N) :
  char_in (lit ".!?") d = true -> add_period (s ++ [d]) = s ++ [d].
Proof.
  intros Hd. unfold add_period. rewrite last_snoc, Hd.
  by rewrite andb_false_r.
Qed.

Lemma add_period_ends (t : list N) :
  t <> [] ->
  exists pre d, add_period t = pre ++ [d] /\ char_in (lit ".!?") d = true
                /\ (add_period t = t \/ add_period t = t ++ [period]).
Proof.
  intros Hne. unfold add_period.
  destruct (last t) as [l|] eqn:Hl; [|by apply last_None in Hl].
  destruct t as [|c t]; [done|]. cbn [truthy andb].
  destruct (char_in (lit ".!?") l) eqn:Hin; cbn [negb].
  - apply last_Some in Hl as [pre Hpre]. exists pre, l. auto.
  - exists (c :: t), period. auto.
Qed.

(** The shape of a result of [add_punctuation] that is not empty. *)
Lemma add_punctuation_shape (s : list N) :
  upper_well_behaved ->
  add_punctuation s = []
  \/ exists u r pre d,
       add_punctuation s = u :: r /\ u :: r = pre ++ [d]
       /\ tidy false (u :: r) /\ isspace u = false
       /\ char_upper u = [u] /\ char_in (lit ".!?") d = true.
Proof.
  intros [_ Hup]. unfold add_punctuation.
  destruct (clean_text s) as [|x rest] eqn:Hclean; [by left|]. right.
  cbn [truthy negb]. rewrite capitalize_first_cons.
  pose proof (clean_text_head s x rest Hclean) as Hx.
  pose proof (clean_text_tidy s) as Htidy. rewrite Hclean in Htidy.
  cbn [tidy] in Htidy. rewrite Hx in Htidy.
  destruct (Hup x Hx) as (u & us & Hux & Hns & Huu). rewrite Hux.
  assert (Hcap : tidy false ((u :: us) ++ rest))
    by (by apply tidy_nonspace_app).
  destruct (add_period_ends ((u :: us) ++ rest)) as (pre & d & Hpd & Hd & Hcase);
    [done|].
  inversion Hns as [|? ? Hu _]; subst.
  destruct Hcase as [Heq | Heq].
  - exists u, (us ++ rest), pre, d. rewrite Heq in Hpd |- *. done.
  - exists u, ((us ++ rest) ++ [period]), pre, d.
    rewrite Heq in Hpd |- *. split; [done|]. split; [done|].
    split; [|done].
    apply (tidy_snoc ((u :: us) ++ rest) period false); done.
Qed.

Lemma collapse_from_snoc (r : list N) (c : N) : forall b,
  isspace c = false -> collapse_from b (r ++ [c]) = collapse_from b r ++ [c].
Proof.
  intros b Hc. revert b. induction r as [|d r IH]; intros b; cbn [app collapse_from].
  - by rewrite Hc.
  - destruct (isspace d); [destruct b|]; by rewrite IH.
Qed.

Lemma lstrip_snoc (r : list N) (c : N) :
  isspace c = false -> exists r', lstrip_by isspace (r ++ [c]) = r' ++ [c].
Proof.
  intros Hc. induction r as [|d r IH]; cbn [app lstrip_by].
  - rewrite Hc. by exists [].
  - destruct (isspace d); [done|]. by exists (d :: r).
Qed.

Lemma terminal_plain (d : N) :
  char_in (lit ".!?") d = true ->
  isspace d = false /\ char_in [comma] d = false
  /\ is_ascii d = true /\ ascii_upper_char d = d.
Proof.
  intros Hd. unfold char_in in Hd. change (lit ".!?") with [46; 33; 63]%N in Hd.
  cbn [existsb] in Hd. rewrite !orb_true_iff, !N.eqb_eq in Hd.
  destruct Hd as [-> | [-> | [-> | H]]]; [done..|discriminate H].
Qed.

Lemma clean_text_terminal (r : list N) (d : N) :
  char_in (lit ".!?") d = true -> exists r', clean_text (r ++ [d]) = r' ++ [d].
Proof.
  intros Hd. destruct (terminal_plain d Hd) as (Hsp & Hcm & _).
  unfold clean_text, collapse_ws, strip, rstrip_chars.
  rewrite collapse_from_snoc by done.
  destruct (lstrip_snoc (collapse_from false r) d Hsp) as (r' & ->).
  exists r'. by rewrite !rstrip_by_snoc_keep.
Qed.

(** C8: the punctuation step is idempotent; it appends no period to a
    text that already ends in [.], [!] or [?] (the result is the cleaned
    text with its first character in upper case); and the empty string
    is mapped to the empty string. *)
Theorem add_punctuation_idempotent :
  upper_well_behaved ->
  (forall s, add_punctuation (add_punctuation s) = add_punctuation s)
  /\ (forall s d, last s = Some d -> char_in (lit ".!?") d = true ->
        add_punctuation s = capitalize_first (clean_text s)
        /\ last (add_punctuation s) = Some d)
  /\ add_punctuation [] = [].
Proof.
  intros Hup. split; [|split; [|done]].
  - intros s.
    destruct (add_punctuation_shape s Hup)
      as [-> | (u & r & pre & d & -> & Hpre & Htidy & Hu & Huu & Hd)];
      [done|].
    unfold add_punctuation. rewrite (clean_text_fixed u d r pre) by done.
    cbn [truthy negb]. rewrite capitalize_first_cons, Huu. cbn [app].
    rewrite Hpre. by apply add_period_terminal.
  - intros s d Hlast Hd. apply last_Some in Hlast as [r ->].
    destruct (clean_text_terminal r d Hd) as (r' & Hr').
    destruct (terminal_plain d Hd) as (_ & _ & Hascii & Hupper).
    unfold add_punctuation. rewrite Hr'.
    assert (Hcap : exists t, capitalize_first (r' ++ [d]) = t ++ [d]).
    { destruct r' as [|x r'].
      - exists []. cbn. destruct Hup as [Ha _]. rewrite (Ha d Hascii).
        by rewrite Hupper.
      - exists (char_upper x ++ r'). cbn [app].
        rewrite capitalize_first_cons. by rewrite <- app_assoc. }
    destruct Hcap as (t & Ht).
    assert (Htruthy : negb (truthy (r' ++ [d])) = false) by (by destruct r').
    rewrite Htruthy, Ht. rewrite add_period_terminal by done.
    split; [done|]. apply last_snoc.
Qed.

(** ** The argument check *)

Lemma date_check_spec (date_str : list N) :
  (length date_str =? 8) && str_isdigit date_str = true
  <-> length date_str = 8 /\ Forall (fun c => char_isdigit c = true) date_str.
Proof.
  unfold str_isdigit.
  rewrite !andb_true_iff, Nat.eqb_eq, forallb_forall, Forall_forall.
  split.
  - intros (Hlen & _ & Hall). split; [done|].
    intros c Hc. apply Hall. by apply list_elem_of_In.
  - intros (Hlen & Hall). split; [done|]. split.
    + by destruct date_str.
    + intros c Hc. apply Hall. by apply list_elem_of_In.
Qed.

(** C9: both scripts accept exactly the arguments that are strings of 8
    digit characters.  The run ends with the error message and exit
    status 1, without a probe of the input file, if and only if the
    argument is not made of exactly 8 digits; otherwise the run goes on
    to probe its input file.  The 7-digit argument 2025122 is rejected. *)
Theorem date_argument_validated (prog date_str : list N) :
  let valid :=
    length date_str = 8 /\ Forall (fun c => char_isdigit c = true) date_str in
  let rejected := [Print (invalid_date_msg date_str); Exit 1] in
  (format_main [prog; date_str] = rejected <-> ~ valid)
  /\ (correct_main [prog; date_str] = rejected <-> ~ valid)
  /\ (forall path, PathExists path ∉ rejected)
  /\ (valid <->
      format_main [prog; date_str]
        = PathExists (raw_path date_str) :: format_after_probe date_str)
  /\ (valid <->
      correct_main [prog; date_str]
        = PathExists (formatted_path date_str) :: correct_after_probe date_str)
  /\ format_main [prog; lit "2025122"]
     = [Print (invalid_date_msg (lit "2025122")); Exit 1]
  /\ correct_main [prog; lit "2025122"]
     = [Print (invalid_date_msg (lit "2025122")); Exit 1].
Proof.
  intros valid rejected. subst valid rejected.
  assert (Hprobe : forall path,
             PathExists path ∉ [Print (invalid_date_msg date_str); Exit 1]).
  { intros path Hin. apply elem_of_cons in Hin as [Hin | Hin];
      [discriminate Hin|].
    apply elem_of_cons in Hin as [Hin | Hin]; [discriminate Hin|].
    by apply elem_of_nil in Hin. }
  unfold format_main, correct_main.
  pose proof (date_check_spec date_str) as Hspec.
  destruct ((length date_str =? 8) && str_isdigit date_str) eqn:Hck;
    cbn [negb].
  - assert (Hv : length date_str = 8
                 /\ Forall (fun c => char_isdigit c = true) date_str)
      by (by apply Hspec).
    split; [split; [intros Heq; discriminate Heq|intros Hn; by destruct Hn]|].
    split; [split; [intros Heq; discriminate Heq|intros Hn; by destruct Hn]|].
    split; [exact Hprobe|]. done.
  - assert (Hv : ~ (length date_str = 8
                    /\ Forall (fun c => char_isdigit c = true) date_str)).
    { intros Hn. apply Hspec in Hn. discriminate Hn. }
    split; [done|]. split; [done|]. split; [exact Hprobe|].
    split; [split; [intros Hn; by destruct Hv|intros Heq; discriminate Heq]|].
    split; [split; [intros Hn; by destruct Hv|intros Heq; discriminate Heq]|].
    done.
Qed.

(** ** Lines *)

Lemma strip_shape (s : list N) : strip s = [] \/ trimmed (strip s).
Proof.
  unfold strip.
  destruct (rstrip_by isspace (lstrip_by isspace s)) as [|c r] eqn:Hr;
    [by left|]. right.
  destruct (last (c :: r)) as [d|] eqn:Hd; [|by apply last_None in Hd].
  apply last_Some in Hd as [r' Hr']. exists c, r, r', d.
  split; [done|]. split; [done|]. split.
  - destruct (rstrip_by_split isspace (lstrip_by isspace s)) as (t & Ht & _).
    rewrite Hr in Ht. simpl in Ht. by apply lstrip_by_head in Ht.
  - rewrite Hr' in Hr. by apply rstrip_by_last in Hr.
Qed.

Lemma strip_trimmed (l : list N) : trimmed l -> strip l = l.
Proof.
  intros (c & r & r' & d & H1 & H2 & Hc & Hd). rewrite H1.
  apply (strip_ends c r r' d); [done..|]. by rewrite <- H1.
Qed.

Lemma strip_idem (s : list N) : strip (strip s) = strip s.
Proof.
  destruct (strip_shape s) as [-> | Ht]; [done|]. by apply strip_trimmed.
Qed.

Lemma lstrip_snoc_space (l : list N) (c : N) :
  isspace c = true ->
  lstrip_by isspace (l ++ [c])
  = match lstrip_by isspace l with [] => [] | _ :: _ => lstrip_by isspace l ++ [c] end.
Proof.
  intros Hc. induction l as [|d l IH]; cbn [app lstrip_by].
  - by rewrite Hc.
  - destruct (isspace d); [exact IH|done].
Qed.

Lemma strip_snoc_space (l : list N) (c : N) :
  isspace c = true -> strip (l ++ [c]) = strip l.
Proof.
  intros Hc. unfold strip. rewrite lstrip_snoc_space by done.
  destruct (lstrip_by isspace l) as [|d r] eqn:Hl; [done|].
  by rewrite rstrip_by_snoc_drop.
Qed.

Lemma strip_cons_space (l : list N) (c : N) :
  isspace c = true -> strip (c :: l) = strip l.
Proof. intros Hc. unfold strip. simpl. by rewrite Hc. Qed.

Lemma split_on_nonempty (sep : N) (s : list N) : split_on sep s <> [].
Proof.
  destruct s as [|c s]; [done|]. simpl.
  destruct (c =? sep)%N; [done|]. by destruct (split_on sep s).
Qed.

Lemma split_on_app_sep (sep : N) (x y : list N) :
  split_on sep (x ++ sep :: y) = split_on sep x ++ split_on sep y.
Proof.
  induction x as [|a x IH]; cbn [app split_on].
  - by rewrite N.eqb_refl.
  - rewrite IH. destruct (a =? sep)%N; [done|].
    pose proof (split_on_nonempty sep x) as Hne.
    by destruct (split_on sep x).
Qed.

Lemma split_on_snoc (sep : N) (x : list N) (c : N) :
  exists ls l,
    split_on sep x = ls ++ [l]
    /\ split_on sep (x ++ [c])
       = if (c =? sep)%N then ls ++ [l; []] else ls ++ [l ++ [c]].
Proof.
  induction x as [|a x (ls & l & Hx & Hxc)]; cbn [app split_on].
  - exists [], []. split; [done|]. by destruct (c =? sep)%N.
  - rewrite Hx, Hxc. destruct (a =? sep)%N.
    + exists ([] :: ls), l. split; [done|]. by destruct (c =? sep)%N.
    + destruct ls as [|m ms].
      * exists [], (a :: l). split; [done|]. by destruct (c =? sep)%N.
      * exists ((a :: m) :: ms), l. split; [done|]. by destruct (c =? sep)%N.
Qed.

Lemma split_on_no_sep (sep : N) (l : list N) :
  sep ∉ l -> split_on sep l = [l].
Proof.
  induction l as [|c l IH]; [done|]. intros Hnot. cbn [split_on].
  rewrite not_elem_of_cons in Hnot. destruct Hnot as [Hne Hnot].
  rewrite (proj2 (N.eqb_neq c sep)) by done. by rewrite IH.
Qed.

Lemma join_split_on (sep : N) (s : list N) :
  join [sep] (split_on sep s) = s.
Proof.
  induction s as [|c s IH]; [done|]. cbn [split_on].
  pose proof (split_on_nonempty sep s) as Hne.
  destruct (split_on sep s) as [|l ls] eqn:Hs; [done|].
  destruct (c =? sep)%N eqn:Hc.
  - apply N.eqb_eq in Hc as ->. rewrite join_cons2, IH. done.
  - rewrite join_cons_char. by rewrite IH.
Qed.

Lemma split_on_join (sep : N) (ls : list (list N)) :
  ls <> [] ->
  split_on sep (join [sep] ls) = concat (split_on sep <$> ls).
Proof.
  induction ls as [|l ls IH]; [done|]. intros _.
  destruct ls as [|l2 ls].
  - simpl. by rewrite app_nil_r.
  - rewrite join_cons2. cbn [app]. rewrite split_on_app_sep.
    rewrite IH by done. done.
Qed.

Lemma content_lines_of_app (xs ys : list (list N)) :
  content_lines_of (xs ++ ys) = content_lines_of xs ++ content_lines_of ys.
Proof. unfold content_lines_of. by rewrite fmap_app, filter_app. Qed.

Lemma content_lines_of_blank (l : list N) (ls : list (list N)) :
  strip l = [] -> content_lines_of (l :: ls) = content_lines_of ls.
Proof.
  intros Hl. unfold content_lines_of. rewrite fmap_cons, Hl.
  by rewrite filter_cons_False by (intros H; by apply H).
Qed.

Lemma content_lines_of_line (l : list N) (ls : list (list N)) :
  strip l <> [] -> content_lines_of (l :: ls) = strip l :: content_lines_of ls.
Proof.
  intros Hl. unfold content_lines_of. rewrite fmap_cons.
  by rewrite filter_cons_True.
Qed.

Lemma content_lines_of_same (l l' : list N) (ls : list (list N)) :
  strip l = strip l' -> content_lines_of (l :: ls) = content_lines_of (l' :: ls).
Proof. intros Hl. unfold content_lines_of. by rewrite !fmap_cons, Hl. Qed.

Lemma content_lines_cons_space (c : N) (s : list N) :
  isspace c = true -> content_lines (c :: s) = content_lines s.
Proof.
  intros Hc. unfold content_lines. cbn [split_on].
  destruct (c =? newline)%N; [by apply content_lines_of_blank|].
  pose proof (split_on_nonempty newline s) as Hne.
  destruct (split_on newline s) as [|l ls]; [done|].
  apply content_lines_of_same. by apply strip_cons_space.
Qed.

Lemma content_lines_snoc_space (s : list N) (c : N) :
  isspace c = true -> content_lines (s ++ [c]) = content_lines s.
Proof.
  intros Hc. unfold content_lines.
  destruct (split_on_snoc newline s c) as (ls & l & -> & ->).
  destruct (c =? newline)%N; rewrite !content_lines_of_app;
    apply (f_equal (app (content_lines_of ls))).
  - transitivity (content_lines_of ([l] ++ [[]])); [done|].
    rewrite content_lines_of_app.
    rewrite (content_lines_of_blank [] []) by done. by rewrite app_nil_r.
  - apply content_lines_of_same. by apply strip_snoc_space.
Qed.

Lemma content_lines_lstrip (s : list N) :
  content_lines (lstrip_by isspace s) = content_lines s.
Proof.
  induction s as [|c s IH]; [done|]. cbn [lstrip_by].
  destruct (isspace c) eqn:Hc; [|done].
  by rewrite content_lines_cons_space.
Qed.

Lemma content_lines_app_spaces (s t : list N) :
  Forall (fun c => isspace c = true) t ->
  content_lines (s ++ t) = content_lines s.
Proof.
  induction t as [|c t IH] using rev_ind; intros Ht.
  - by rewrite app_nil_r.
  - apply Forall_app in Ht as [Ht Hc]. inversion Hc; subst.
    rewrite app_assoc, content_lines_snoc_space by done. by apply IH.
Qed.

Lemma content_lines_rstrip (s : list N) :
  content_lines (rstrip_by isspace s) = content_lines s.
Proof.
  destruct (rstrip_by_split isspace s) as (t & Hs & Ht).
  rewrite Hs at 2. by rewrite content_lines_app_spaces.
Qed.

Lemma content_lines_strip (s : list N) :
  content_lines (strip s) = content_lines s.
Proof. unfold strip. by rewrite content_lines_rstrip, content_lines_lstrip. Qed.

Lemma content_lines_of_trimmed (ls : list (list N)) :
  Forall trimmed (content_lines_of ls).
Proof.
  unfold content_lines_of. apply Forall_forall. intros l Hl.
  apply list_elem_of_filter in Hl as [Hne Hl].
  apply list_elem_of_fmap in Hl as (l0 & -> & _).
  by destruct (strip_shape l0).
Qed.

(** *** Words and lines *)

Lemma words_cons_space (c : N) (s : list N) :
  isspace c = true -> words (c :: s) = words s.
Proof. intros Hc. cbn [words]. by rewrite Hc. Qed.

Lemma words_app_space (x y : list N) (c : N) :
  isspace c = true -> words (x ++ c :: y) = words x ++ words y.
Proof.
  intros Hc. induction x as [|a x IH].
  - by apply words_cons_space.
  - destruct (isspace a) eqn:Ha.
    { rewrite <- app_comm_cons, !words_cons_space by done. exact IH. }
    destruct x as [|d x].
    + cbn [app words]. by rewrite Ha, Hc.
    + assert (Hw : forall z, words (a :: d :: z)
                = if isspace d then [a] :: words (d :: z)
                  else match words (d :: z) with
                       | w :: ws => (a :: w) :: ws
                       | [] => [[a]]
                       end).
      { intros z. cbn [words]. by rewrite Ha. }
      rewrite <- !app_comm_cons, !Hw. rewrite app_comm_cons, IH.
      destruct (isspace d) eqn:Hd; [done|].
      destruct (words_head_nonspace d x Hd) as (w & ws & ->). done.
Qed.

Lemma words_snoc_space (x : list N) (c : N) :
  isspace c = true -> words (x ++ [c]) = words x.
Proof.
  intros Hc. rewrite (words_app_space x [] c Hc). simpl. by rewrite app_nil_r.
Qed.

Lemma words_lstrip (s : list N) : words (lstrip_by isspace s) = words s.
Proof.
  induction s as [|c s IH]; [done|]. cbn [lstrip_by].
  destruct (isspace c) eqn:Hc; [|done]. by rewrite words_cons_space.
Qed.

Lemma words_rstrip (s : list N) : words (rstrip_by isspace s) = words s.
Proof.
  destruct (rstrip_by_split isspace s) as (t & Hs & Ht).
  rewrite Hs at 2. clear Hs. induction t as [|c t IH] using rev_ind.
  - by rewrite app_nil_r.
  - apply Forall_app in Ht as [Ht Hc]. inversion Hc; subst.
    rewrite app_assoc, words_snoc_space by done. by apply IH.
Qed.

Lemma words_strip (s : list N) : words (strip s) = words s.
Proof. unfold strip. by rewrite words_rstrip, words_lstrip. Qed.

Lemma words_join (c : N) (ls : list (list N)) :
  isspace c = true -> words (join [c] ls) = concat (words <$> ls).
Proof.
  intros Hc. induction ls as [|l ls IH]; [done|].
  destruct ls as [|l2 ls].
  - simpl. by rewrite app_nil_r.
  - rewrite join_cons2. cbn [app]. rewrite words_app_space by done.
    by rewrite IH.
Qed.

Lemma words_content_lines_of (ls : list (list N)) :
  concat (words <$> content_lines_of ls) = concat (words <$> ls).
Proof.
  induction ls as [|l ls IH]; [done|]. rewrite fmap_cons. cbn [concat].
  rewrite <- IH, <- (words_strip l).
  destruct (strip l) as [|c r] eqn:Hl.
  - by rewrite content_lines_of_blank.
  - rewrite content_lines_of_line by (by rewrite Hl). by rewrite Hl.
Qed.

(** The words of a text are the words of its lines, in order. *)
Lemma words_content_lines (s : list N) :
  concat (words <$> content_lines s) = words s.
Proof.
  unfold content_lines. rewrite words_content_lines_of.
  rewrite <- (join_split_on newline s) at 2. by rewrite words_join.
Qed.

(** ** parse_transcript *)

Lemma startswith_app (x y : list N) : startswith (x ++ y) x = true.
Proof.
  induction x as [|a x IH]; [by destruct y|].
  cbn [app startswith]. by rewrite N.eqb_refl.
Qed.

Lemma endswith_app (s suf : list N) : endswith (s ++ suf) suf = true.
Proof. unfold endswith. rewrite rev_app_distr. apply startswith_app. Qed.

(** The characters of the suffix are pairwise distinct, so an occurrence
    of the suffix at the start of [s ++ AVATAR_SUFFIX] lies in [s]. *)
Lemma startswith_before_suffix (s : list N) :
  s <> [] -> startswith (s ++ AVATAR_SUFFIX) AVATAR_SUFFIX = true ->
  exists post, s = AVATAR_SUFFIX ++ post.
Proof.
  intros Hne H. unfold AVATAR_SUFFIX in *.
  destruct s as [|a [|b [|c [|d [|e s]]]]]; [done|..];
    cbn [app startswith] in H; split_andb; subst; try discriminate.
  by exists s.
Qed.

Lemma remove_all_suffix (sp : list N) :
  ~ contains sp AVATAR_SUFFIX ->
  remove_all AVATAR_SUFFIX (sp ++ AVATAR_SUFFIX) = sp.
Proof.
  unfold remove_all. induction sp as [|c sp IH]; intros Hnot.
  - vm_compute. reflexivity.
  - change ((c :: sp) ++ AVATAR_SUFFIX) with (c :: (sp ++ AVATAR_SUFFIX)).
    cbn [remove_from].
    destruct (startswith (c :: sp ++ AVATAR_SUFFIX) AVATAR_SUFFIX) eqn:Hst.
    + change (c :: sp ++ AVATAR_SUFFIX) with ((c :: sp) ++ AVATAR_SUFFIX) in Hst.
      apply startswith_before_suffix in Hst as [post Hpost]; [|done].
      exfalso. apply Hnot. by exists [], post.
    + f_equal. apply IH.
      intros (pre & post & ->). apply Hnot. by exists (c :: pre), post.
Qed.

Lemma label_line_trimmed (sp : list N) :
  wf_speaker sp -> trimmed (sp ++ AVATAR_SUFFIX).
Proof.
  intros ((c & r & -> & Hc) & _).
  exists c, (r ++ AVATAR_SUFFIX),
    ((c :: r) ++ [0x306E; 0x30A2; 0x30D0; 0x30BF]%N), 0x30FC%N.
  split; [done|]. split; [by rewrite <- app_assoc|]. done.
Qed.

Lemma parse_line_blank (st : parse_state) (l : list N) :
  strip l = [] -> parse_line st l = st.
Proof. intros Hl. unfold parse_line. by rewrite Hl. Qed.

Lemma parse_line_strip (st : parse_state) (l : list N) :
  parse_line st (strip l) = parse_line st l.
Proof. unfold parse_line. by rewrite strip_idem. Qed.

Lemma parse_line_label (st : parse_state) (sp : list N) :
  wf_speaker sp ->
  parse_line st (sp ++ AVATAR_SUFFIX)
  = {| utterances := save_pending st;
       current_speaker := Some sp;
       current_text_parts := [] |}.
Proof.
  intros Hwf. unfold parse_line.
  rewrite (strip_trimmed _ (label_line_trimmed sp Hwf)).
  destruct Hwf as ((c & r & -> & Hc) & _ & Hnot).
  cbn [app truthy negb]. rewrite app_comm_cons, endswith_app.
  by rewrite remove_all_suffix.
Qed.

Lemma parse_line_content (st : parse_state) (sp l : list N) :
  current_speaker st = Some sp -> truthy sp = true ->
  trimmed l -> endswith l AVATAR_SUFFIX = false ->
  parse_line st l
  = {| utterances := utterances st;
       current_speaker := Some sp;
       current_text_parts := current_text_parts st ++ [l] |}.
Proof.
  intros Hsp Ht Hl Hend. unfold parse_line.
  rewrite (strip_trimmed l Hl), Hend, Hsp, Ht.
  destruct Hl as (c & r & _ & _ & -> & _). done.
Qed.

Lemma parse_lines_content (ls : list (list N)) :
  forall (st : parse_state) (sp : list N),
    current_speaker st = Some sp -> truthy sp = true ->
    Forall (fun l => trimmed l /\ endswith l AVATAR_SUFFIX = false) ls ->
    fold_left parse_line ls st
    = {| utterances := utterances st;
         current_speaker := Some sp;
         current_text_parts := current_text_parts st ++ ls |}.
Proof.
  induction ls as [|l ls IH]; intros st sp Hsp Ht Hls.
  - simpl. rewrite app_nil_r. destruct st. simpl in *. by rewrite Hsp.
  - inversion Hls as [|? ? [Hl Hend] Hls']; subst. cbn [fold_left].
    rewrite (parse_line_content st sp l) by done.
    rewrite (IH _ sp) by done. cbn. by rewrite <- app_assoc.
Qed.

Lemma parse_lines_of (ls : list (list N)) :
  forall st : parse_state,
    fold_left parse_line ls st = fold_left parse_line (content_lines_of ls) st.
Proof.
  induction ls as [|l ls IH]; intros st; [done|]. cbn [fold_left].
  destruct (strip l) as [|c r] eqn:Hl.
  - rewrite content_lines_of_blank, parse_line_blank by done. apply IH.
  - rewrite content_lines_of_line by (by rewrite Hl). cbn [fold_left].
    rewrite parse_line_strip. apply IH.
Qed.

(** The parser only depends on the stripped non-blank lines. *)
Lemma parse_transcript_lines (raw : list N) :
  parse_transcript raw
  = save_pending (fold_left parse_line (content_lines raw) parse_init).
Proof.
  unfold parse_transcript. rewrite parse_lines_of.
  fold (content_lines (strip raw)). by rewrite content_lines_strip.
Qed.

(** *** Parsing what was rendered *)

Lemma content_lines_of_concat (xs : list (list (list N))) :
  content_lines_of (concat xs) = concat (content_lines_of <$> xs).
Proof.
  induction xs as [|x xs IH]; [done|]. cbn [concat fmap list_fmap].
  by rewrite content_lines_of_app, IH.
Qed.

Lemma suffix_no_newline : newline ∉ AVATAR_SUFFIX.
Proof.
  unfold AVATAR_SUFFIX, newline. rewrite !not_elem_of_cons.
  repeat split; try (intros H; discriminate H). apply not_elem_of_nil.
Qed.

Lemma render_block_lines (p : list N * list N) :
  wf_speaker p.1 ->
  content_lines (render_block p) = block_content p.
Proof.
  intros Hwf. unfold content_lines, render_block, block_content.
  rewrite app_assoc. cbn [app]. rewrite split_on_app_sep.
  rewrite split_on_no_sep.
  2:{ rewrite not_elem_of_app. split; [apply Hwf|apply suffix_no_newline]. }
  cbn [app]. rewrite content_lines_of_line.
  - by rewrite (strip_trimmed _ (label_line_trimmed _ Hwf)).
  - rewrite (strip_trimmed _ (label_line_trimmed _ Hwf)).
    destruct Hwf as ((c & r & -> & _) & _). done.
Qed.

Lemma render_raw_lines (pairs : list (list N * list N)) :
  Forall (fun p => wf_speaker p.1) pairs ->
  content_lines (render_raw pairs) = concat (block_content <$> pairs).
Proof.
  intros Hwf. destruct pairs as [|p pairs]; [done|].
  unfold content_lines, render_raw.
  rewrite split_on_join by done. rewrite content_lines_of_concat.
  f_equal. rewrite <- !list_fmap_compose.
  apply Forall_fmap_ext_1. eapply Forall_impl; [exact Hwf|].
  intros q Hq. cbn. by apply render_block_lines.
Qed.

Lemma wf_text_lines (t : list N) :
  wf_text t ->
  content_lines t <> []
  /\ Forall (fun l => trimmed l /\ endswith l AVATAR_SUFFIX = false)
            (content_lines t).
Proof.
  intros [(c & Hin & Hc) Hend]. split.
  - intros Hnil. pose proof (words_content_lines t) as Hw.
    rewrite Hnil in Hw. simpl in Hw. symmetry in Hw.
    apply words_nil_spaces in Hw. rewrite Forall_forall in Hw.
    specialize (Hw c Hin). congruence.
  - apply Forall_forall. intros l Hl. split.
    + pose proof (content_lines_of_trimmed (split_on newline t)) as Ht.
      rewrite Forall_forall in Ht. by apply Ht.
    + unfold content_lines, content_lines_of in Hl.
      apply list_elem_of_filter in Hl as [_ Hl].
      apply list_elem_of_fmap in Hl as (l0 & -> & Hl0).
      rewrite Forall_forall in Hend. by apply Hend.
Qed.

Lemma parse_blocks (pairs : list (list N * list N)) :
  forall st : parse_state,
    Forall (fun p => wf_speaker p.1 /\ wf_text p.2) pairs ->
    save_pending (fold_left parse_line (concat (block_content <$> pairs)) st)
    = save_pending st ++ (parsed_block <$> pairs).
Proof.
  induction pairs as [|[sp t] pairs IH]; intros st Hwf.
  - simpl. by rewrite app_nil_r.
  - inversion Hwf as [|? ? [Hsp Ht] Hwf']; subst. cbn [fst snd] in *.
    rewrite fmap_cons. cbn [concat]. unfold block_content at 1. cbn [fst snd].
    rewrite <- app_comm_cons. cbn [fold_left]. rewrite fold_left_app.
    rewrite parse_line_label by done.
    destruct (wf_text_lines t Ht) as [Hne Hlines].
    assert (Htruthy : truthy sp = true).
    { destruct Hsp as ((c & r & -> & _) & _). done. }
    rewrite (parse_lines_content (content_lines t) _ sp) by done.
    rewrite IH by done. cbn [utterances current_text_parts app].
    assert (Htr : trimmed (join [space] (content_lines t))).
    { apply join_trimmed; [|done].
      eapply Forall_impl; [exact Hlines|]. by intros l [? _]. }
    assert (Hsave : save_pending
                      {| utterances := save_pending st;
                         current_speaker := Some sp;
                         current_text_parts := content_lines t |}
                    = save_pending st ++ [parsed_block (sp, t)]).
    { unfold save_pending at 1. cbn [current_speaker current_text_parts utterances].
      rewrite Htruthy, (strip_trimmed _ Htr).
      destruct (content_lines t) as [|l ls] eqn:Hcl; [done|]. cbn [truthy andb].
      unfold parsed_block. cbn [fst snd]. rewrite Hcl.
      destruct Htr as (c & r & _ & _ & -> & _). done. }
    rewrite Hsave, fmap_cons, <- app_assoc. done.
Qed.

(** The parser gives back the blocks that were rendered. *)
Lemma parse_render (pairs : list (list N * list N)) :
  Forall (fun p => wf_speaker p.1 /\ wf_text p.2) pairs ->
  parse_transcript (render_raw pairs) = parsed_block <$> pairs.
Proof.
  intros Hwf. rewrite parse_transcript_lines.
  rewrite render_raw_lines by (eapply Forall_impl; [exact Hwf|]; by intros p [? _]).
  by rewrite parse_blocks.
Qed.

(** C4, as the code has it: for every sequence of (speaker, text) pairs
    whose speakers start with a character that is not white space and
    contain no line break and no occurrence of the label suffix, and
    whose texts have a character that is not white space and no line
    that ends in the suffix once stripped, rendering the sequence with
    the label convention and parsing it gives back the same speakers, in
    order, each with its text up to the collapsing of white space. *)
Theorem parse_inverts_render (pairs : list (list N * list N)) :
  Forall (fun p => wf_speaker p.1 /\ wf_text p.2) pairs ->
  Forall2 same_up_to_ws pairs (parse_transcript (render_raw pairs)).
Proof.
  intros Hwf. rewrite parse_render by done.
  apply Forall2_fmap_r, Forall_Forall2_diag, Forall_forall.
  intros [sp t] _. split; [done|]. unfold parsed_block. cbn [fst snd text].
  rewrite !normalize_words. f_equal.
  rewrite words_join by done. apply words_content_lines.
Qed.

(** ** More on the merge *)

Lemma turn_blocks_length (us : list Utterance) :
  length (turn_blocks us) <= length us.
Proof.
  destruct us as [|cur rest]; [done|]. cbn [turn_blocks length].
  apply scan_turn_length.
Qed.

(** X5: the merge makes at most as many turns as there are utterances,
    and it makes none only for the empty input. *)
Theorem merge_never_longer (us : list Utterance) :
  exists out,
    merge_utterances us = Some out
    /\ length out <= length us
    /\ (out = [] <-> us = []).
Proof.
  exists (turn_of <$> turn_blocks us).
  split; [apply merge_utterances_blocks|]. split.
  - rewrite length_fmap. apply turn_blocks_length.
  - destruct us as [|cur rest]; [done|]. cbn [turn_blocks].
    destruct (scan_turn_head rest cur []) as (tk & more & ->).
    split; intros H; discriminate H.
Qed.

Lemma scan_turn_same (rest : list Utterance) :
  forall cur taken,
    Forall (fun u => speaker u = speaker cur) rest ->
    scan_turn cur taken rest = [(cur, taken ++ rest)].
Proof.
  induction rest as [|u rest IH]; intros cur taken Hall; cbn [scan_turn].
  - by rewrite app_nil_r.
  - inversion Hall as [|? ? Hu Hrest]; subst.
    unfold same_speaker. rewrite bool_decide_eq_true_2 by done.
    rewrite IH by done. by rewrite <- app_assoc.
Qed.

Lemma own_texts_same (cur : Utterance) (taken : list Utterance) :
  Forall (fun u => speaker u = speaker cur) taken ->
  own_texts cur taken = text <$> taken.
Proof.
  intros Hall. unfold own_texts. f_equal.
  induction Hall as [|u taken Hu _ IH]; [done|].
  by rewrite filter_cons_True, IH.
Qed.

(** X6: utterances that all have the speaker of the first one merge
    into a single turn, whose text is all the texts joined by spaces. *)
Theorem merge_one_speaker (cur : Utterance) (rest : list Utterance) :
  Forall (fun u => speaker u = speaker cur) rest ->
  merge_utterances (cur :: rest)
  = Some [mkUtterance (speaker cur) (join [space] (text <$> cur :: rest))].
Proof.
  intros Hall. rewrite merge_utterances_blocks. cbn [turn_blocks].
  rewrite scan_turn_same by done. cbn [fmap list_fmap app].
  unfold turn_of. cbn [fst snd]. by rewrite own_texts_same.
Qed.

Lemma join_app (sep : list N) (a b : list (list N)) :
  a <> [] -> b <> [] -> join sep (a ++ b) = join sep a ++ sep ++ join sep b.
Proof.
  intros Ha Hb. induction a as [|x a IH]; [done|].
  destruct a as [|y a].
  - destruct b as [|z b]; [done|]. done.
  - rewrite <- app_comm_cons. change ((y :: a) ++ b) with (y :: (a ++ b)).
    rewrite !join_cons2. change (y :: (a ++ b)) with ((y :: a) ++ b).
    rewrite IH by done. by rewrite <- !app_assoc.
Qed.

Lemma join_concat (sep : list N) (gs : list (list (list N))) :
  Forall (fun g => g <> []) gs ->
  join sep (join sep <$> gs) = join sep (concat gs).
Proof.
  induction 1 as [|g gs Hg Hgs IH]; [done|].
  destruct gs as [|g2 gs].
  - simpl. by rewrite app_nil_r.
  - rewrite !fmap_cons, join_cons2. rewrite <- fmap_cons, IH.
    cbn [concat]. rewrite (join_app sep g); [done..|].
    inversion Hgs; subst. by destruct g2.
Qed.

Lemma scan_turn_no_interjection (rest : list Utterance) :
  forall cur taken,
    Forall (fun u => is_minimal_interjection (text u) = false) rest ->
    Forall (fun u => speaker u = speaker cur) taken ->
    Forall (fun b => Forall (fun u => speaker u = speaker b.1) b.2)
           (scan_turn cur taken rest).
Proof.
  induction rest as [|u rest IH]; intros cur taken Hno Htaken; cbn [scan_turn].
  - by constructor.
  - inversion Hno as [|? ? Hu Hrest]; subst.
    unfold same_speaker at 1. case_bool_decide as Hsame.
    + apply IH; [done|]. apply Forall_app. by split; [|constructor].
    + rewrite Hu. cbn [andb]. constructor; [done|]. by apply IH.
Qed.

(** X7: when no utterance of the input is a minimal interjection, the
    merge only joins runs of one speaker and drops nothing: every turn is
    a block of utterances of its speaker with all their texts, and the
    texts of the turns, joined, are the texts of the input, joined. *)
Theorem merge_without_interjections (us : list Utterance) :
  Forall (fun u => is_minimal_interjection (text u) = false) us ->
  exists blocks,
    merge_utterances us = Some (turn_of <$> blocks)
    /\ concat (block_items <$> blocks) = us
    /\ Forall (fun b =>
         Forall (fun u => speaker u = speaker b.1) (block_items b)
         /\ text (turn_of b) = join [space] (text <$> block_items b)) blocks
    /\ join [space] (text <$> (turn_of <$> blocks))
       = join [space] (text <$> us).
Proof.
  intros Hno. exists (turn_blocks us).
  split; [apply merge_utterances_blocks|].
  split; [apply turn_blocks_concat|].
  assert (Hown : Forall (fun b => Forall (fun u => speaker u = speaker b.1) b.2)
                        (turn_blocks us)).
  { destruct us as [|cur rest]; [constructor|]. cbn [turn_blocks].
    inversion Hno; subst. by apply scan_turn_no_interjection. }
  assert (Htexts : Forall (fun b =>
              text (turn_of b) = join [space] (text <$> block_items b))
            (turn_blocks us)).
  { eapply Forall_impl; [exact Hown|]. intros [cur taken] Hb.
    unfold turn_of, block_items. cbn [fst snd text] in *.
    by rewrite own_texts_same. }
  split.
  - apply Forall_forall. intros b Hb. rewrite Forall_forall in Hown, Htexts.
    split; [|by apply Htexts]. constructor; [done|]. by apply Hown.
  - rewrite <- (turn_blocks_concat us) at 2.
    rewrite <- list_fmap_compose.
    rewrite (Forall_fmap_ext_1 (text ∘ turn_of)
               (join [space] ∘ (fmap text ∘ block_items)) (turn_blocks us))
      by exact Htexts.
    rewrite (list_fmap_compose (fmap text ∘ block_items) (join [space])).
    rewrite join_concat.
    + f_equal. rewrite list_fmap_compose.
      generalize (block_items <$> turn_blocks us). intros gs.
      induction gs as [|g gs IH]; [done|]. cbn [fmap list_fmap concat].
      rewrite fmap_app. f_equal. exact IH.
    + apply Forall_fmap, Forall_forall. intros b _. done.
Qed.

(** X8: merging the output of a merge again changes nothing exactly when
    no turn of that output whose text is a minimal interjection stands
    between two turns of one speaker. *)
Theorem merge_twice (us out : list Utterance) :
  merge_utterances us = Some out ->
  (merge_utterances out = Some out <-> no_flanked_interjection out).
Proof.
  rewrite merge_utterances_blocks. intros [= <-].
  assert (Halt : alternating (turn_of <$> turn_blocks us)).
  { destruct us as [|u us]; [done|]. apply scan_turn_alternating. }
  revert Halt. generalize (turn_of <$> turn_blocks us). intros out Halt.
  rewrite merge_utterances_blocks.
  destruct out as [|cur rest]; [done|]. cbn [turn_blocks]. split.
  - intros [= Heq]. apply scan_turn_full_length; [done|].
    apply (f_equal length) in Heq. by rewrite length_fmap in Heq.
  - intros Hnf. rewrite scan_turn_unchanged by done.
    f_equal. rewrite <- list_fmap_compose.
    rewrite <- (list_fmap_id (cur :: rest)) at 2.
    apply list_fmap_ext. intros ? u ?. apply turn_of_single.
Qed.

Lemma scan_turn_foreign_then_own (rest : list Utterance) :
  forall cur taken,
    (forall i w, taken !! i = Some w -> speaker w <> speaker cur ->
       exists v, (taken ++ rest) !! S i = Some v /\ speaker v = speaker cur) ->
    Forall (fun b => foreign_then_own b.1 b.2) (scan_turn cur taken rest).
Proof.
  induction rest as [|u rest IH]; intros cur taken Hinv; cbn [scan_turn].
  - rewrite app_nil_r in Hinv. by constructor.
  - assert (Hold : forall i w, taken !! i = Some w -> speaker w <> speaker cur ->
               exists v, ((taken ++ [u]) ++ rest) !! S i = Some v
                         /\ speaker v = speaker cur).
    { intros i w Hw Hf. rewrite <- app_assoc. by apply (Hinv i w). }
    unfold same_speaker at 1. case_bool_decide as Hsame.
    { apply IH. intros i w Hw Hf.
      destruct (decide (i < length taken)) as [Hin | Hout].
      - rewrite lookup_app_l in Hw by done. by apply (Hold i w).
      - rewrite lookup_app_r in Hw by lia.
        destruct (i - length taken); simpl in Hw; [|done].
        inversion Hw; subst. done. }
    destruct (is_minimal_interjection (text u) && returns_to cur rest) eqn:Hc.
    { apply andb_true_iff in Hc as [_ Hret].
      destruct rest as [|v rest]; [done|]. cbn [returns_to] in Hret.
      apply bool_decide_eq_true in Hret.
      apply IH. intros i w Hw Hf.
      destruct (decide (i < length taken)) as [Hin | Hout].
      - rewrite lookup_app_l in Hw by done. by apply (Hold i w).
      - pose proof (lookup_lt_Some _ _ _ Hw) as Hlt.
        rewrite length_app in Hlt. simpl in Hlt.
        assert (i = length taken) as -> by lia.
        exists v. split; [|done].
        replace (S (length taken)) with (length (taken ++ [u]))
          by (rewrite length_app; simpl; lia).
        by rewrite list_lookup_middle. }
    constructor.
    + cbn [fst snd]. intros i w Hw Hforeign.
      pose proof (lookup_lt_Some _ _ _ Hw) as Hlt.
      destruct (Hinv i w) as (v & Hv & Hown); [done..|].
      exists v. split; [|done].
      destruct (decide (S i < length taken)) as [Hin | Hout].
      * by rewrite lookup_app_l in Hv.
      * assert (S i = length taken) as Heq by lia.
        rewrite Heq, list_lookup_middle in Hv by done.
        inversion Hv; subst. done.
    + apply IH. intros i w Hw _. done.
Qed.

(** X9: an utterance of another speaker is taken into a turn only when
    the utterance right after it, in the same turn, is by the turn's
    speaker; so no turn ends with an utterance whose text was dropped. *)
Theorem merge_skips_only_between (us : list Utterance) :
  exists blocks,
    merge_utterances us = Some (turn_of <$> blocks)
    /\ concat (block_items <$> blocks) = us
    /\ Forall (fun b => foreign_then_own b.1 b.2) blocks
    /\ Forall (fun b => exists v, last (block_items b) = Some v
                                  /\ speaker v = speaker b.1) blocks.
Proof.
  exists (turn_blocks us).
  split; [apply merge_utterances_blocks|].
  split; [apply turn_blocks_concat|].
  assert (Hall : Forall (fun b => foreign_then_own b.1 b.2) (turn_blocks us)).
  { destruct us as [|cur rest]; [constructor|]. cbn [turn_blocks].
    apply scan_turn_foreign_then_own. intros i w Hw _. done. }
  split; [exact Hall|].
  eapply Forall_impl; [exact Hall|]. intros [cur taken] Hb. cbn [fst snd] in *.
  unfold block_items. cbn [fst snd].
  destruct taken as [|w taken _] using rev_ind; [by exists cur|].
  exists w. rewrite app_comm_cons, last_snoc. split; [done|].
  destruct (decide (speaker w = speaker cur)) as [|Hne]; [done|].
  destruct (Hb (length taken) w) as (v & Hv & _);
    [by rewrite list_lookup_middle|done|].
  apply lookup_lt_Some in Hv. rewrite length_app in Hv. simpl in Hv. lia.
Qed.

(** ** More on the parser *)

Lemma split_on_lines_no_sep (sep : N) (s : list N) :
  Forall (fun l => sep ∉ l) (split_on sep s).
Proof.
  induction s as [|c s IH]; cbn [split_on].
  - constructor; [apply not_elem_of_nil|constructor].
  - destruct (c =? sep)%N eqn:Hc.
    + constructor; [apply not_elem_of_nil|done].
    + apply N.eqb_neq in Hc.
      destruct (split_on sep s) as [|l ls].
      * constructor; [|constructor]. rewrite not_elem_of_cons.
        split; [congruence|apply not_elem_of_nil].
      * inversion IH; subst. constructor; [|done].
        rewrite not_elem_of_cons. split; [congruence|done].
Qed.

Lemma strip_elem_of (c : N) (l : list N) : c ∈ strip l -> c ∈ l.
Proof.
  unfold strip. intros Hc.
  destruct (rstrip_by_split isspace (lstrip_by isspace l)) as (t1 & H1 & _).
  destruct (lstrip_by_split isspace l) as (t2 & H2 & _).
  rewrite H2, H1. rewrite !elem_of_app. auto.
Qed.

Lemma remove_from_elem_of (old s : list N) (c : N) :
  forall k, c ∈ remove_from k old s -> c ∈ s.
Proof.
  induction s as [|d s IH]; intros k; [done|]. cbn [remove_from].
  destruct k as [|k].
  - destruct (startswith (d :: s) old).
    + intros H. apply elem_of_cons. right. by eapply IH.
    + rewrite !elem_of_cons. intros [-> | H]; [by left|].
      right. by eapply IH.
  - intros H. apply elem_of_cons. right. by eapply IH.
Qed.

Lemma join_no_newline (parts : list (list N)) :
  Forall (fun l => newline ∉ l) parts -> newline ∉ join [space] parts.
Proof.
  induction 1 as [|l ls Hl Hls IH]; [apply not_elem_of_nil|].
  destruct ls as [|l2 ls]; [done|].
  rewrite join_cons2, !not_elem_of_app. split; [done|]. split; [|done].
  rewrite not_elem_of_cons. split; [done|apply not_elem_of_nil].
Qed.

Lemma content_lines_no_newline (s : list N) :
  Forall (fun l => newline ∉ l) (content_lines s).
Proof.
  unfold content_lines, content_lines_of. apply Forall_forall. intros l Hl.
  apply list_elem_of_filter in Hl as [_ Hl].
  apply list_elem_of_fmap in Hl as (l0 & -> & Hl0).
  pose proof (split_on_lines_no_sep newline s) as Hno.
  rewrite Forall_forall in Hno. intros Hin.
  apply (Hno l0 Hl0). by apply strip_elem_of.
Qed.

Lemma save_pending_ok (st : parse_state) :
  parse_inv st -> Forall parsed_ok (save_pending st).
Proof.
  intros (Hus & Hparts & Hsp). unfold save_pending.
  destruct (current_speaker st) as [sp|] eqn:Hcur; [|done].
  destruct (truthy sp && truthy (current_text_parts st)) eqn:Ht; [|done].
  apply andb_true_iff in Ht as [Htsp _].
  destruct (strip_shape (join [space] (current_text_parts st))) as [-> | Htr];
    [done|].
  destruct (strip (join [space] (current_text_parts st))) as [|c r] eqn:Hs;
    [done|]. cbn [truthy].
  apply Forall_app. split; [done|]. constructor; [|constructor].
  split; [by destruct sp|]. split; [by apply Hsp|]. split; [done|].
  cbn [text]. rewrite <- Hs. intros Hin. apply strip_elem_of in Hin.
  by apply (join_no_newline (current_text_parts st)).
Qed.

Lemma parse_line_inv (st : parse_state) (l : list N) :
  newline ∉ l -> parse_inv st -> parse_inv (parse_line st l).
Proof.
  intros Hl Hinv. unfold parse_line.
  assert (Hstrip : newline ∉ strip l).
  { intros Hin. by apply Hl, strip_elem_of. }
  destruct (truthy (strip l)); cbn [negb]; [|done].
  destruct (endswith (strip l) AVATAR_SUFFIX).
  - split; [by apply save_pending_ok|]. split; [constructor|].
    cbn [current_speaker]. intros sp [= <-] Hin.
    by apply Hstrip, (remove_from_elem_of AVATAR_SUFFIX _ _ 0).
  - pose proof Hinv as (Hus & Hparts & Hsp).
    destruct (current_speaker st) as [sp|] eqn:Hcur; [|exact Hinv].
    destruct (truthy sp); [|exact Hinv].
    split; [done|]. split.
    + cbn [current_text_parts]. apply Forall_app. by split; [|constructor].
    + cbn [current_speaker]. intros sp' Hsp'. apply Hsp. by rewrite <- Hsp'.
Qed.

Lemma parse_lines_inv (ls : list (list N)) :
  forall st, Forall (fun l => newline ∉ l) ls -> parse_inv st ->
    parse_inv (fold_left parse_line ls st).
Proof.
  induction ls as [|l ls IH]; intros st Hls Hinv; [done|].
  inversion Hls; subst. cbn [fold_left]. apply IH; [done|].
  by apply parse_line_inv.
Qed.

(** X1: every utterance the parser returns has a speaker that is not
    empty and a text that starts and ends with a character that is not
    white space, and neither contains a line break. *)
Theorem parse_transcript_ok (raw_text : list N) :
  Forall parsed_ok (parse_transcript raw_text).
Proof.
  rewrite parse_transcript_lines. apply save_pending_ok.
  apply parse_lines_inv; [apply content_lines_no_newline|].
  split; [constructor|]. split; [constructor|]. intros sp H. discriminate H.
Qed.

Lemma parse_lines_unlabelled (ls : list (list N)) :
  Forall (fun l => endswith (strip l) AVATAR_SUFFIX = false) ls ->
  fold_left parse_line ls parse_init = parse_init.
Proof.
  induction 1 as [|l ls Hl _ IH]; [done|]. cbn [fold_left].
  assert (parse_line parse_init l = parse_init) as ->; [|exact IH].
  unfold parse_line. rewrite Hl. by destruct (truthy (strip l)).
Qed.

(** X2: what stands before the first label line is discarded: a text
    none of whose lines is a label gives no utterance, and putting such
    a text, and a line break, before a transcript does not change what
    is parsed.  The empty transcript gives no utterance. *)
Theorem parse_discards_preamble (pre : list N) :
  Forall (fun l => endswith (strip l) AVATAR_SUFFIX = false)
         (split_on newline pre) ->
  parse_transcript pre = []
  /\ forall rest, parse_transcript (pre ++ newline :: rest)
                  = parse_transcript rest.
Proof.
  intros Hpre.
  assert (Hcl : Forall (fun l => endswith (strip l) AVATAR_SUFFIX = false)
                       (content_lines pre)).
  { unfold content_lines, content_lines_of. apply Forall_forall. intros l Hl.
    apply list_elem_of_filter in Hl as [_ Hl].
    apply list_elem_of_fmap in Hl as (l0 & -> & Hl0).
    rewrite strip_idem. rewrite Forall_forall in Hpre. by apply Hpre. }
  split.
  - rewrite parse_transcript_lines, parse_lines_unlabelled by done. done.
  - intros rest. rewrite !parse_transcript_lines. unfold content_lines at 1.
    rewrite split_on_app_sep, content_lines_of_app, fold_left_app.
    fold (content_lines pre). by rewrite parse_lines_unlabelled.
Qed.

Lemma content_lines_of_fixed (ls : list (list N)) :
  Forall trimmed ls -> content_lines_of ls = ls.
Proof.
  induction 1 as [|l ls Hl _ IH]; [done|].
  rewrite content_lines_of_line.
  - by rewrite (strip_trimmed l Hl), IH.
  - rewrite (strip_trimmed l Hl). by destruct Hl as (c & r & _ & _ & -> & _).
Qed.

Lemma split_on_lines (sep : N) (ls : list (list N)) :
  Forall (fun l => sep ∉ l) ls -> concat (split_on sep <$> ls) = ls.
Proof.
  induction 1 as [|l ls Hl _ IH]; [done|].
  rewrite fmap_cons. cbn [concat]. by rewrite split_on_no_sep, IH.
Qed.

Lemma content_lines_idem (s : list N) :
  content_lines (join [newline] (content_lines s)) = content_lines s.
Proof.
  pose proof (content_lines_of_trimmed (split_on newline s)) as Htr.
  pose proof (content_lines_no_newline s) as Hno.
  fold (content_lines s) in Htr.
  destruct (content_lines s) as [|l ls] eqn:Hcl; [done|].
  unfold content_lines at 1. rewrite split_on_join by done.
  rewrite split_on_lines by done. by apply content_lines_of_fixed.
Qed.

(** X3: blank lines and white space around the lines do not matter:
    parsing the stripped non-blank lines of a transcript, one per line,
    gives what parsing the transcript gives. *)
Theorem parse_ignores_layout (raw_text : list N) :
  parse_transcript (join [newline] (content_lines raw_text))
  = parse_transcript raw_text.
Proof. rewrite !parse_transcript_lines. by rewrite content_lines_idem. Qed.

Lemma save_pending_length (st : parse_state) :
  length (save_pending st) <= blocks_seen st.
Proof.
  unfold save_pending, blocks_seen.
  destruct (current_speaker st) as [sp|]; [|lia].
  destruct (truthy sp && truthy (current_text_parts st)); [|lia].
  destruct (truthy (strip (join [space] (current_text_parts st)))); [|lia].
  rewrite length_app. simpl. lia.
Qed.

Lemma parse_line_blocks_seen (st : parse_state) (l : list N) :
  trimmed l ->
  blocks_seen (parse_line st l)
  <= blocks_seen st + (if is_label l then 1 else 0).
Proof.
  intros Hl. unfold parse_line, is_label. rewrite (strip_trimmed l Hl).
  destruct (truthy l); cbn [negb]; [|lia].
  destruct (endswith l AVATAR_SUFFIX).
  - unfold blocks_seen at 1. cbn [utterances current_speaker].
    pose proof (save_pending_length st). lia.
  - destruct (current_speaker st) as [sp|] eqn:Hcur; [|lia].
    destruct (truthy sp); [|lia].
    unfold blocks_seen. cbn [utterances current_speaker]. rewrite Hcur. lia.
Qed.

Lemma parse_lines_blocks_seen (ls : list (list N)) :
  forall st, Forall trimmed ls ->
    blocks_seen (fold_left parse_line ls st)
    <= blocks_seen st + length (filter (fun l => is_label l = true) ls).
Proof.
  induction ls as [|l ls IH]; intros st Hls; [simpl; lia|].
  inversion Hls as [|? ? Hl Hls']; subst. cbn [fold_left].
  specialize (IH (parse_line st l) Hls').
  pose proof (parse_line_blocks_seen st l Hl) as Hstep.
  destruct (is_label l) eqn:Hlab.
  - rewrite filter_cons_True by done. simpl. lia.
  - rewrite filter_cons_False by (by rewrite Hlab). lia.
Qed.

(** X4: the parser returns at most one utterance per label line of the
    transcript. *)
Theorem parse_at_most_one_per_label (raw_text : list N) :
  length (parse_transcript raw_text)
  <= length (filter (fun l => is_label l = true) (content_lines raw_text)).
Proof.
  rewrite parse_transcript_lines.
  pose proof (save_pending_length
                (fold_left parse_line (content_lines raw_text) parse_init)).
  pose proof (parse_lines_blocks_seen (content_lines raw_text) parse_init
                (content_lines_of_trimmed _)) as Hb.
  unfold blocks_seen at 2 in Hb. simpl in Hb. lia.
Qed.

(** ** More on the text normalizer *)

Lemma words_concat (s : list N) :
  concat (words s) = filter (fun c => isspace c = false) s.
Proof.
  induction s as [|c s IH]; [done|]. cbn [words].
  destruct (isspace c) eqn:Hc.
  - rewrite filter_cons_False by (by rewrite Hc). exact IH.
  - rewrite filter_cons_True by done. rewrite <- IH.
    destruct s as [|d s]; [done|].
    destruct (isspace d) eqn:Hd; [done|].
    destruct (words_head_nonspace d s Hd) as (w & ws & ->). done.
Qed.

Lemma filter_word (w : list N) :
  Forall (fun c => isspace c = false) w ->
  filter (fun c => isspace c = false) w = w.
Proof.
  induction 1 as [|c w Hc _ IH]; [done|].
  by rewrite filter_cons_True, IH.
Qed.

Lemma filter_join_words (ws : list (list N)) :
  Forall is_word ws ->
  filter (fun c => isspace c = false) (join [space] ws) = concat ws.
Proof.
  induction 1 as [|w ws [_ Hw] Hws IH]; [done|].
  destruct ws as [|w2 ws].
  - simpl. rewrite app_nil_r. by apply filter_word.
  - rewrite join_cons2, !filter_app, IH, filter_word by done.
    rewrite filter_cons_False by done. done.
Qed.

(** X10: the normalizer only takes away white space and trailing commas:
    the characters of the input that are not white space are, in order,
    those of the result, followed by the commas that were removed. *)
Theorem clean_text_keeps_characters (s : list N) :
  exists k,
    filter (fun c => isspace c = false) s
    = filter (fun c => isspace c = false) (clean_text s) ++ replicate k comma.
Proof.
  unfold clean_text, rstrip_chars. rewrite normalize_words.
  destruct (rstrip_by_split (char_in [comma]) (join [space] (words s)))
    as (t & Ht & Hall).
  exists (length t). rewrite <- words_concat.
  rewrite <- (filter_join_words (words s)) by apply words_are_words.
  rewrite Ht at 1. rewrite filter_app. f_equal.
  rewrite (all_commas t Hall) at 1.
  apply filter_word, Forall_replicate. done.
Qed.

Lemma tidy_lookup (s : list N) :
  forall b i c,
    tidy b s -> s !! i = Some c -> isspace c = true ->
    c = space
    /\ match i with
       | O => b = false
       | S j => exists d, s !! j = Some d /\ isspace d = false
       end.
Proof.
  induction s as [|x s IH]; intros b i c Ht Hi Hc; [done|].
  cbn [tidy] in Ht. destruct i as [|i]; simpl in Hi.
  - inversion Hi; subst. rewrite Hc in Ht. by destruct Ht as (? & ? & _).
  - destruct (isspace x) eqn:Hx.
    + destruct Ht as (_ & _ & Ht).
      destruct (IH true i c Ht Hi Hc) as [Hsp Hprev]. split; [done|].
      destruct i as [|i]; [done|]. exact Hprev.
    + destruct (IH false i c Ht Hi Hc) as [Hsp Hprev]. split; [done|].
      destruct i as [|i]; [by exists x|]. exact Hprev.
Qed.

(** X11: in a normalized text white space only occurs as a single space
    between two characters that are not white space, or as one space at
    the very end (left there when commas after it were removed): a
    white-space character of the result is U+0020, is not the first
    character, and follows a character that is not white space. *)
Theorem clean_text_spacing (s : list N) (i : nat) (c : N) :
  clean_text s !! i = Some c -> isspace c = true ->
  c = space
  /\ exists j d, i = S j /\ clean_text s !! j = Some d /\ isspace d = false.
Proof.
  intros Hi Hc.
  destruct (tidy_lookup (clean_text s) false i c (clean_text_tidy s) Hi Hc)
    as [Hsp Hprev].
  split; [done|]. destruct i as [|j].
  - destruct (clean_text s) as [|x r] eqn:Hclean; [done|].
    simpl in Hi. injection Hi as Hxc.
    pose proof (clean_text_head s x r Hclean). congruence.
  - destruct Hprev as (d & Hd & Hdsp). by exists j, d.
Qed.

(** X12: the result of the punctuation step is empty or ends in one of
    [.], [!] and [?]; it is empty whenever the normalized text is. *)
Theorem add_punctuation_terminal (s : list N) :
  (add_punctuation s = []
   \/ exists pre d, add_punctuation s = pre ++ [d]
                    /\ char_in (lit ".!?") d = true)
  /\ (clean_text s = [] -> add_punctuation s = []).
Proof.
  unfold add_punctuation. split.
  - destruct (clean_text s) as [|c rest]; [by left|]. cbn [truthy negb].
    destruct (capitalize_first (c :: rest)) as [|x r] eqn:Hcap; [by left|].
    right. destruct (add_period_ends (x :: r)) as (pre & d & Hpd & Hd & _);
      [done|].
    by exists pre, d.
  - by intros ->.
Qed.

(** ** The formatted document *)

Lemma tidy_no_newline (s : list N) : forall b, tidy b s -> newline ∉ s.
Proof.
  induction s as [|c s IH]; intros b Ht; [apply not_elem_of_nil|].
  cbn [tidy] in Ht. rewrite not_elem_of_cons.
  destruct (isspace c) eqn:Hc.
  - destruct Ht as (_ & -> & Ht). split; [done|]. by eapply IH.
  - split; [|by eapply IH]. intros <-. done.
Qed.

Lemma add_punctuation_no_newline (s : list N) :
  upper_well_behaved -> newline ∉ add_punctuation s.
Proof.
  intros Hup.
  destruct (add_punctuation_shape s Hup)
    as [-> | (u & r & pre & d & -> & _ & Htidy & _)];
    [apply not_elem_of_nil|].
  by eapply tidy_no_newline.
Qed.

Lemma turn_line_no_newline (utt : Utterance) :
  upper_well_behaved -> newline ∉ speaker utt -> newline ∉ turn_line utt.
Proof.
  intros Hup Hsp. unfold turn_line. rewrite !not_elem_of_app.
  split; [done|]. split; [|by apply add_punctuation_no_newline].
  change (lit ": ") with [58; 32]%N. rewrite !not_elem_of_cons.
  repeat split; try (intros H; discriminate H). apply not_elem_of_nil.
Qed.

Lemma split_on_blank_separated (ls : list (list N)) :
  Forall (fun l => newline ∉ l) ls -> ls <> [] ->
  split_on newline (join [newline; newline] ls) = blank_separated ls.
Proof.
  induction 1 as [|l ls Hl Hls IH]; [done|]. intros _.
  destruct ls as [|l2 ls].
  - cbn [join blank_separated]. by apply split_on_no_sep.
  - rewrite join_cons2. cbn [app blank_separated].
    rewrite split_on_app_sep, split_on_no_sep by done.
    cbn [app split_on]. rewrite N.eqb_refl. by rewrite IH.
Qed.

Lemma format_transcript_join (us : list Utterance) :
  format_transcript us = join [newline; newline] (turn_line <$> us).
Proof. done. Qed.

Lemma turn_lines_no_newline (us : list Utterance) :
  upper_well_behaved ->
  Forall (fun u => newline ∉ speaker u) us ->
  Forall (fun l => newline ∉ l) (turn_line <$> us).
Proof.
  intros Hup Hsp. apply Forall_fmap. eapply Forall_impl; [exact Hsp|].
  intros u Hu. by apply turn_line_no_newline.
Qed.

(** X13: in the formatted transcript every turn is one line, the speaker,
    a colon and a space, and the punctuated text, and there is one empty
    line between two turns, whenever no speaker contains a line break. *)
Theorem format_transcript_lines (us : list Utterance) :
  upper_well_behaved ->
  Forall (fun u => newline ∉ speaker u) us -> us <> [] ->
  split_on newline (format_transcript us) = blank_separated (turn_line <$> us).
Proof.
  intros Hup Hsp Hne. rewrite format_transcript_join.
  apply split_on_blank_separated.
  - by apply turn_lines_no_newline.
  - by destruct us.
Qed.

Lemma block_items_in_concat (blocks : list (Utterance * list Utterance))
    (b : Utterance * list Utterance) :
  b ∈ blocks -> b.1 ∈ concat (block_items <$> blocks).
Proof.
  induction 1 as [b bs | b b' bs _ IH]; rewrite fmap_cons; cbn [concat];
    apply elem_of_app; [left|by right].
  apply list_elem_of_here.
Qed.

Lemma turn_blocks_openers (us : list Utterance) :
  Forall (fun b => b.1 ∈ us) (turn_blocks us).
Proof.
  apply Forall_forall. intros b Hb.
  rewrite <- (turn_blocks_concat us) at 1.
  by apply block_items_in_concat.
Qed.

(** X14: the turns made from any raw transcript have speakers that are
    not empty and on one line, no two neighbours have the same speaker,
    there are no more of them than label lines in the transcript, and
    the formatted transcript has one line per turn with one empty line
    between two turns. *)
Theorem process_transcript_document (raw_text : list N) :
  upper_well_behaved ->
  exists merged,
    process_transcript raw_text = Some merged
    /\ alternating merged
    /\ Forall (fun t => speaker t <> [] /\ newline ∉ speaker t) merged
    /\ length merged
       <= length (filter (fun l => is_label l = true) (content_lines raw_text))
    /\ (merged <> [] ->
        split_on newline (format_transcript merged)
        = blank_separated (turn_line <$> merged)).
Proof.
  intros Hup. unfold process_transcript.
  exists (turn_of <$> turn_blocks (parse_transcript raw_text)).
  split; [apply merge_utterances_blocks|].
  assert (Hsp : Forall (fun t => speaker t <> [] /\ newline ∉ speaker t)
                  (turn_of <$> turn_blocks (parse_transcript raw_text))).
  { apply Forall_fmap. eapply Forall_impl; [apply turn_blocks_openers|].
    intros b Hb. cbn.
    assert (Hok : Forall parsed_ok (parse_transcript raw_text)).
    { rewrite parse_transcript_lines. apply save_pending_ok.
      apply parse_lines_inv; [apply content_lines_no_newline|].
      split; [constructor|]. split; [constructor|]. intros sp H.
      discriminate H. }
    rewrite Forall_forall in Hok. by destruct (Hok b.1 Hb) as (? & ? & _). }
  split.
  { destruct (parse_transcript raw_text) as [|u us]; [done|].
    apply scan_turn_alternating. }
  split; [exact Hsp|]. split.
  - rewrite length_fmap.
    pose proof (turn_blocks_length (parse_transcript raw_text)) as Hlen.
    rewrite parse_transcript_lines in Hlen |- *.
    pose proof (save_pending_length
                  (fold_left parse_line (content_lines raw_text) parse_init)).
    pose proof (parse_lines_blocks_seen (content_lines raw_text) parse_init
                  (content_lines_of_trimmed _)) as Hb.
    unfold blocks_seen at 2 in Hb. simpl in Hb. lia.
  - intros Hne. rewrite format_transcript_join.
    apply split_on_blank_separated.
    + apply turn_lines_no_newline; [done|].
      eapply Forall_impl; [exact Hsp|]. by intros t [_ ?].
    + intros Hnil. apply Hne. by eapply fmap_nil_inv.
Qed.

Lemma formatted_date_no_newline (date_str : list N) :
  newline ∉ date_str -> newline ∉ formatted_date date_str.
Proof.
  intros Hno. unfold formatted_date. change (lit "-") with [45%N].
  rewrite !not_elem_of_app, !not_elem_of_cons.
  assert (Htake : forall n (l : list N), newline ∉ l -> newline ∉ take n l).
  { intros n l Hl Hin. apply Hl. rewrite <- (take_drop n l), elem_of_app.
    by left. }
  assert (Hdrop : forall n (l : list N), newline ∉ l -> newline ∉ drop n l).
  { intros n l Hl Hin. apply Hl. rewrite <- (take_drop n l), elem_of_app.
    by right. }
  repeat split; auto using not_elem_of_nil;
    try (intros H; discriminate H).
Qed.

(** X15: the content written for a date without line break and turns
    whose speakers have none is, line by line: the title with the
    formatted date, an empty line, the lines of the turns with one empty
    line between two of them, and an empty last line after the final
    line break. *)
Theorem output_content_lines (date_str : list N) (merged : list Utterance) :
  upper_well_behaved ->
  newline ∉ date_str ->
  Forall (fun u => newline ∉ speaker u) merged ->
  split_on newline (output_content date_str merged)
  = (lit "# Cambly Session - " ++ formatted_date date_str)
      :: [] :: match merged with
               | [] => [[]]
               | _ :: _ => blank_separated (turn_line <$> merged)
               end ++ [[]].
Proof.
  intros Hup Hdate Hsp.
  assert (Hshape : output_content date_str merged
                   = (lit "# Cambly Session - " ++ formatted_date date_str)
                       ++ newline :: (newline
                            :: (format_transcript merged ++ newline :: []))).
  { unfold output_content. by rewrite <- !app_assoc. }
  rewrite Hshape.
  rewrite split_on_app_sep, split_on_no_sep.
  2:{ rewrite not_elem_of_app. split; [|by apply formatted_date_no_newline].
      apply (bool_decide_unpack _). vm_compute. exact I. }
  cbn [app split_on]. rewrite N.eqb_refl. do 2 f_equal.
  rewrite split_on_app_sep.
  f_equal. destruct merged as [|u us]; [done|].
  rewrite format_transcript_join. apply split_on_blank_separated; [|done].
  by apply turn_lines_no_newline.
Qed.

(** X16: the formatted date of an argument of 8 characters has 10
    characters, with a hyphen after the fourth and after the sixth
    character of the argument; taking the hyphens out of it gives the
    argument back, when the argument has no hyphen. *)
Theorem formatted_date_shape (date_str : list N) :
  length date_str = 8 ->
  length (formatted_date date_str) = 10
  /\ formatted_date date_str !! 4 = Some 45%N
  /\ formatted_date date_str !! 7 = Some 45%N
  /\ (45%N ∉ date_str ->
      filter (fun c => c <> 45%N) (formatted_date date_str) = date_str).
Proof.
  intros Hlen.
  destruct date_str as [|a [|b [|c [|d [|e [|f [|g [|h [|i r]]]]]]]]];
    try discriminate Hlen.
  split; [done|]. split; [done|]. split; [done|].
  intros Hno. rewrite !not_elem_of_cons in Hno.
  destruct Hno as (Ha & Hb & Hc & Hd & He & Hf & Hg & Hh & _).
  unfold formatted_date. change (lit "-") with [45%N]. cbn [take drop app].
  repeat (first [rewrite filter_cons_True by congruence
                |rewrite filter_cons_False by (intros H; by apply H)]).
  done.
Qed.

(** ** More on the interjection test *)

Lemma isspace_printable (c : N) : (33 <= c < 133)%N -> isspace c = false.
Proof.
  intros Hc. unfold isspace.
  replace (c <=? 13)%N with false by (symmetry; apply N.leb_gt; lia).
  replace (c <=? 32)%N with false by (symmetry; apply N.leb_gt; lia).
  replace (8192 <=? c)%N with false by (symmetry; apply N.leb_gt; lia).
  rewrite !andb_false_r. cbn [orb].
  repeat match goal with
         | |- context [(c =? ?k)%N] =>
             replace (c =? k)%N with false by (symmetry; apply N.eqb_neq; lia)
         end.
  reflexivity.
Qed.

Lemma space_ascii_lower (c : N) :
  isspace c = true -> ascii_lower_char c = c.
Proof.
  intros Hc. unfold ascii_lower_char.
  destruct ((65 <=? c)%N && (c <=? 90)%N) eqn:Hrange; [|done].
  apply andb_true_iff in Hrange as [H1 H2]. apply N.leb_le in H1, H2.
  rewrite isspace_printable in Hc by lia. discriminate Hc.
Qed.

Lemma strip_pad (p x q : list N) :
  Forall (fun c => isspace c = true) p ->
  Forall (fun c => isspace c = true) q ->
  strip (p ++ x ++ q) = strip x.
Proof.
  intros Hp Hq. transitivity (strip (x ++ q)).
  - unfold strip. by rewrite lstrip_by_all.
  - clear Hp. induction q as [|c q IH] using rev_ind.
    + by rewrite app_nil_r.
    + apply Forall_app in Hq as [Hq Hc]. inversion Hc; subst.
      rewrite app_assoc, strip_snoc_space by done. by apply IH.
Qed.

(** X17: white space around a text of 7-bit characters does not change
    whether it is a minimal interjection. *)
Theorem interjection_ignores_padding (p t q : list N) :
  lower_agrees_on_ascii ->
  Forall (fun c => is_ascii c = true) (p ++ t ++ q) ->
  Forall (fun c => isspace c = true) p ->
  Forall (fun c => isspace c = true) q ->
  is_minimal_interjection (p ++ t ++ q) = is_minimal_interjection t.
Proof.
  intros Hlower Hascii Hp Hq. unfold is_minimal_interjection.
  pose proof Hascii as Ht. apply Forall_app in Ht as [_ Ht].
  apply Forall_app in Ht as [Ht _].
  rewrite !Hlower by done. unfold ascii_lower. rewrite !fmap_app.
  assert (Hsame : forall w : list N, Forall (fun c => isspace c = true) w ->
                    ascii_lower_char <$> w = w).
  { intros w Hw. induction Hw as [|c w Hc _ IH]; [done|].
    by rewrite fmap_cons, IH, space_ascii_lower. }
  rewrite (Hsame p Hp), (Hsame q Hq). by rewrite strip_pad.
Qed.

End Formatter.

(** ** The development at the 7-bit mappings, on concrete inputs *)

Lemma ascii_lower_agrees : lower_agrees_on_ascii ascii_lower.
Proof. intros s _. reflexivity. Qed.

Lemma ascii_upper_nonspace (c : N) :
  isspace c = false -> isspace (ascii_upper_char c) = false.
Proof.
  intros Hc. unfold ascii_upper_char.
  destruct ((97 <=? c)%N && (c <=? 122)%N) eqn:Hrange; [|done].
  apply andb_true_iff in Hrange as [H1 H2].
  apply N.leb_le in H1, H2. apply isspace_printable. lia.
Qed.

Lemma ascii_upper_idem (c : N) :
  ascii_upper_char (ascii_upper_char c) = ascii_upper_char c.
Proof. unfold ascii_upper_char. case_leb. Qed.

Lemma ascii_upper_well_behaved : upper_well_behaved ascii_upper1.
Proof.
  split; [done|]. intros c Hc. exists (ascii_upper_char c), [].
  split; [done|]. split.
  - constructor; [by apply ascii_upper_nonspace|constructor].
  - unfold ascii_upper1. by rewrite ascii_upper_idem.
Qed.

(** The example of the specification, run on the code. *)
Lemma merge_example_drops_interjection :
  merge_utterances ascii_lower
    [mkUtterance (lit "A") (lit "I think so");
     mkUtterance (lit "B") (lit "mm-hmm");
     mkUtterance (lit "A") (lit "It was good")]
  <> Some [mkUtterance (lit "A") (lit "I think so mm-hmm It was good")].
Proof. vm_compute. intros H. discriminate H. Qed.

Lemma merge_turn_text_witness :
  merge_utterances ascii_lower
    [mkUtterance (lit "A") (lit "I think so");
     mkUtterance (lit "B") (lit "mm-hmm");
     mkUtterance (lit "A") (lit "It was good")]
  = Some [mkUtterance (lit "A") (lit "I think so It was good")].
Proof. exact (proj2 (merge_turn_text ascii_lower ascii_lower_agrees)). Defined.

(** An alternating sequence that the merge changes; it is itself the
    output of the merge on (A, x), (B, uh), (B, huh), (A, y). *)
Lemma merge_not_idempotent :
  let us := [mkUtterance (lit "A") (lit "x");
             mkUtterance (lit "B") (lit "uh huh");
             mkUtterance (lit "A") (lit "y")] in
  alternating us
  /\ merge_utterances ascii_lower
       [mkUtterance (lit "A") (lit "x"); mkUtterance (lit "B") (lit "uh");
        mkUtterance (lit "B") (lit "huh"); mkUtterance (lit "A") (lit "y")]
     = Some us
  /\ merge_utterances ascii_lower us
     = Some [mkUtterance (lit "A") (lit "x y")]
  /\ merge_utterances ascii_lower us <> Some us.
Proof.
  cbn zeta. split; [|split; [|split]].
  - vm_compute. split; [|split]; [intros H; discriminate H..|exact I].
  - vm_compute. reflexivity.
  - vm_compute. reflexivity.
  - vm_compute. intros H. discriminate H.
Qed.

Lemma merge_unchanged_iff_witness :
  merge_utterances ascii_lower
    [mkUtterance (lit "A") (lit "hello"); mkUtterance (lit "B") (lit "okay")]
  = Some [mkUtterance (lit "A") (lit "hello"); mkUtterance (lit "B") (lit "okay")].
Proof.
  apply (merge_unchanged_iff ascii_lower).
  - vm_compute. split; [intros H; discriminate H|exact I].
  - vm_compute. repeat split.
Defined.

(** Two trailing commas: both are removed, not one. *)
Lemma clean_text_two_commas :
  clean_text (lit "a,,") = lit "a"
  /\ clean_text (lit "a,,")
     <> drop_one_trailing_comma (strip (collapse_ws (lit "a,,"))).
Proof. split; [vm_compute; reflexivity|vm_compute; intros H; discriminate H]. Qed.

Lemma interjection_set_exact_witness :
  is_minimal_interjection ascii_lower (lit "Mm-Hmm" ++ lit "!?") = true.
Proof.
  apply (proj1 (interjection_set_exact ascii_lower ascii_lower_agrees)
           (lit "mm-hmm")).
  - apply (bool_decide_unpack _). vm_compute. exact I.
  - vm_compute. repeat (constructor; [(by left) || (by right)|]). constructor.
  - vm_compute. repeat (constructor; [reflexivity|]). constructor.
Defined.

Lemma add_punctuation_idempotent_witness :
  add_punctuation ascii_upper1 (add_punctuation ascii_upper1 (lit "well,  i think so,"))
  = add_punctuation ascii_upper1 (lit "well,  i think so,").
Proof.
  exact (proj1 (add_punctuation_idempotent ascii_upper1 ascii_upper_well_behaved)
           (lit "well,  i think so,")).
Defined.

Lemma final_interjection_own_turn_witness :
  let us := [mkUtterance (lit "A") (lit "so"); mkUtterance (lit "B") (lit "okay.")] in
  absorb_loop ascii_lower 3 us (mkUtterance (lit "A") (lit "so")) 1 [lit "so"]
    = Some (1, [lit "so"])
  /\ merge_loop ascii_lower 4 us 1 [mkUtterance (lit "A") (lit "so")]
     = Some [mkUtterance (lit "A") (lit "so"); mkUtterance (lit "B") (lit "okay.")].
Proof.
  cbn zeta.
  apply (proj1 (final_interjection_own_turn ascii_lower)
           [mkUtterance (lit "A") (lit "so"); mkUtterance (lit "B") (lit "okay.")]
           (mkUtterance (lit "A") (lit "so"))
           (mkUtterance (lit "B") (lit "okay."))
           1 2 [lit "so"] [mkUtterance (lit "A") (lit "so")]).
  - reflexivity.
  - reflexivity.
  - vm_compute. intros H. discriminate H.
  - vm_compute. reflexivity.
Defined.

(** A block whose text is white space only is dropped by the parser. *)
Lemma parse_drops_blank_text :
  let pairs := [(lit "A", lit " ")] in
  Forall claimed_wf pairs
  /\ parse_transcript (render_raw pairs) = []
  /\ ~ Forall2 same_up_to_ws pairs (parse_transcript (render_raw pairs)).
Proof.
  cbn zeta. split; [|split].
  - constructor; [|constructor]. split; [|split].
    + intros H. discriminate H.
    + intros H. discriminate H.
    + vm_compute. constructor; [reflexivity|constructor].
  - vm_compute. reflexivity.
  - intros H. apply Forall2_length in H. vm_compute in H. discriminate H.
Qed.

(** White space before a speaker is lost as well. *)
Lemma parse_strips_speaker :
  parse_transcript (render_raw [(lit " A", lit "x")])
  = [mkUtterance (lit "A") (lit "x")].
Proof. vm_compute. reflexivity. Qed.

Lemma short_has_no_suffix (sp : list N) :
  length sp < 5 -> ~ contains sp AVATAR_SUFFIX.
Proof.
  intros Hlen (pre & post & ->). rewrite !length_app in Hlen.
  simpl in Hlen. lia.
Qed.

Lemma parse_inverts_render_witness :
  Forall2 same_up_to_ws
    [(lit "A", lit "hello   there"); (lit "B", lit "ok,  fine")]
    (parse_transcript
       (render_raw [(lit "A", lit "hello   there"); (lit "B", lit "ok,  fine")])).
Proof.
  apply parse_inverts_render.
  repeat (constructor; [split; [split; [|split]|split]|]).
  - exists 65%N, []. split; reflexivity.
  - apply (bool_decide_unpack _). vm_compute. exact I.
  - apply short_has_no_suffix. vm_compute. lia.
  - exists 104%N. split; [|reflexivity].
    apply (bool_decide_unpack _). vm_compute. exact I.
  - vm_compute. repeat (constructor; [reflexivity|]). constructor.
  - exists 66%N, []. split; reflexivity.
  - apply (bool_decide_unpack _). vm_compute. exact I.
  - apply short_has_no_suffix. vm_compute. lia.
  - exists 111%N. split; [|reflexivity].
    apply (bool_decide_unpack _). vm_compute. exact I.
  - vm_compute. repeat (constructor; [reflexivity|]). constructor.
  - constructor.
Defined.

(** A well-formed date goes on to the probe of the raw transcript. *)
Lemma date_argument_validated_witness :
  format_main ascii_isdigit (fun _ => [])
    [lit "format_transcript.py"; lit "20251222"]
  = [PathExists (lit "cambly/raw/20251222.txt")].
Proof.
  pose proof (date_argument_validated ascii_isdigit (fun _ => []) (fun _ => [])
                (lit "format_transcript.py") (lit "20251222")) as H.
  cbn zeta in H. destruct H as (_ & _ & _ & [H _] & _).
  apply H. split; [reflexivity|].
  vm_compute. repeat (constructor; [reflexivity|]). constructor.
Defined.

(** ** The further properties on concrete inputs *)

Lemma parse_discards_preamble_witness :
  parse_transcript (lit "recorded on monday") = []
  /\ forall rest,
       parse_transcript (lit "recorded on monday" ++ newline :: rest)
       = parse_transcript rest.
Proof.
  apply parse_discards_preamble.
  vm_compute. repeat (constructor; [reflexivity|]). constructor.
Defined.

Lemma merge_one_speaker_witness :
  merge_utterances ascii_lower
    [mkUtterance (lit "A") (lit "well"); mkUtterance (lit "A") (lit "okay");
     mkUtterance (lit "A") (lit "fine")]
  = Some [mkUtterance (lit "A") (lit "well okay fine")].
Proof.
  apply (merge_one_speaker ascii_lower (mkUtterance (lit "A") (lit "well"))).
  repeat (constructor; [reflexivity|]). constructor.
Defined.

Lemma merge_without_interjections_witness :
  exists blocks,
    merge_utterances ascii_lower
      [mkUtterance (lit "A") (lit "hi"); mkUtterance (lit "A") (lit "there");
       mkUtterance (lit "B") (lit "hello"); mkUtterance (lit "B") (lit "you")]
    = Some (turn_of <$> blocks)
    /\ join [space] (text <$> (turn_of <$> blocks))
       = lit "hi there hello you".
Proof.
  destruct (merge_without_interjections ascii_lower
              [mkUtterance (lit "A") (lit "hi"); mkUtterance (lit "A") (lit "there");
               mkUtterance (lit "B") (lit "hello"); mkUtterance (lit "B") (lit "you")])
    as (blocks & Hmerge & _ & _ & Htext).
  - vm_compute. repeat (constructor; [reflexivity|]). constructor.
  - exists blocks. split; [exact Hmerge|]. rewrite Htext.
    vm_compute. reflexivity.
Defined.

Lemma merge_twice_witness :
  merge_utterances ascii_lower
    [mkUtterance (lit "A") (lit "hi there"); mkUtterance (lit "B") (lit "hello")]
  = Some [mkUtterance (lit "A") (lit "hi there"); mkUtterance (lit "B") (lit "hello")].
Proof.
  apply (merge_twice ascii_lower
           [mkUtterance (lit "A") (lit "hi"); mkUtterance (lit "A") (lit "there");
            mkUtterance (lit "B") (lit "hello")]).
  - vm_compute. reflexivity.
  - vm_compute. repeat split.
Defined.

Lemma clean_text_spacing_witness :
  32%N = space
  /\ exists j d, 1 = S j /\ clean_text (lit "a   b,") !! j = Some d
                 /\ isspace d = false.
Proof.
  apply (clean_text_spacing (lit "a   b,") 1 32%N); reflexivity.
Defined.

Lemma format_transcript_lines_witness :
  split_on newline
    (format_transcript ascii_upper1
       [mkUtterance (lit "A") (lit "hi there"); mkUtterance (lit "B") (lit "hello")])
  = [lit "A: Hi there."; []; lit "B: Hello."].
Proof.
  rewrite format_transcript_lines.
  - vm_compute. reflexivity.
  - apply ascii_upper_well_behaved.
  - repeat (constructor; [apply (bool_decide_unpack _); vm_compute; exact I|]).
    constructor.
  - intros H. discriminate H.
Defined.

Lemma process_transcript_document_witness :
  let raw := lit "A" ++ AVATAR_SUFFIX ++ newline :: lit "hi there" in
  exists merged,
    process_transcript ascii_lower raw = Some merged
    /\ alternating merged
    /\ Forall (fun t => speaker t <> [] /\ newline ∉ speaker t) merged
    /\ length merged
       <= length (filter (fun l => is_label l = true) (content_lines raw))
    /\ (merged <> [] ->
        split_on newline (format_transcript ascii_upper1 merged)
        = blank_separated (turn_line ascii_upper1 <$> merged)).
Proof.
  cbn zeta. apply (process_transcript_document ascii_lower ascii_upper1).
  apply ascii_upper_well_behaved.
Defined.

Lemma output_content_lines_witness :
  split_on newline
    (output_content ascii_upper1 (lit "20251222")
       [mkUtterance (lit "A") (lit "hi there")])
  = [lit "# Cambly Session - 2025-12-22"; []; lit "A: Hi there."; []].
Proof.
  rewrite output_content_lines.
  - vm_compute. reflexivity.
  - apply ascii_upper_well_behaved.
  - apply (bool_decide_unpack _). vm_compute. exact I.
  - repeat (constructor; [apply (bool_decide_unpack _); vm_compute; exact I|]).
    constructor.
Defined.

Lemma formatted_date_shape_witness :
  length (formatted_date (lit "20251222")) = 10
  /\ formatted_date (lit "20251222") !! 4 = Some 45%N
  /\ formatted_date (lit "20251222") !! 7 = Some 45%N
  /\ (45%N ∉ lit "20251222" ->
      filter (fun c => c <> 45%N) (formatted_date (lit "20251222"))
      = lit "20251222").
Proof. apply formatted_date_shape. reflexivity. Defined.

Lemma interjection_ignores_padding_witness :
  is_minimal_interjection ascii_lower (lit "  " ++ lit "Okay." ++ lit " ")
  = is_minimal_interjection ascii_lower (lit "Okay.").
Proof.
  apply interjection_ignores_padding.
  - apply ascii_lower_agrees.
  - vm_compute. repeat (constructor; [reflexivity|]). constructor.
  - vm_compute. repeat (constructor; [reflexivity|]). constructor.
  - vm_compute. repeat (constructor; [reflexivity|]). constructor.
Defined.
